(** * QuickShort: the instrumented quick sort of [src/App.tsx]

    A shallow embedding of [generateSteps] (App.tsx, lines 56-148) and of
    its inner closure [quickSort] (lines 70-133), with the properties of
    the trace they build.

    Modelling choices.
    - A JavaScript [number] is an integer or [NaN].  The engine performs
      no arithmetic on the values: it only compares them with [<=] and
      prints them in template literals, so integers are embedded exactly
      (up to the size at which JavaScript switches to exponent notation).
    - Indices ([low], [high], [i], [j], [pivotIndex]) are [Z]: the code
      computes [low - 1] and [length - 1], which are [-1] on the first
      partition and on the empty array.
    - The closure mutates three things: the array [arrayBars] (its
      parameter [arr] is always that one object), the list [steps] and the
      counter [partitionCount].  They form the record [Heap], threaded
      through a state monad.
    - Dereferencing [arr[k].value] with [k] out of range is a [TypeError]
      in JavaScript; the monad carries that outcome.
    - [ArrayBar] objects are never mutated in place (every change of tag
      goes through an object spread), so sharing them between snapshots is
      unobservable and they are modelled as values.
    - The call stack of the engine is taken to be as deep as the input
      is long. *)

From stdpp Require Import base numbers list strings pretty sorting.

Local Open Scope Z_scope.

(** ** Data model (App.tsx, lines 4-16) *)

Inductive number : Type :=
  | Num (z : Z)
  | NaN.

Inductive BarState : Type :=
  | SDefault | SPivot | SComparing | SSorted | SActive.

Record ArrayBar : Type := mkBar {
  value : number;
  state : BarState
}.

Record Step : Type := mkStep {
  array : list ArrayBar;
  pivotIndex : Z;
  comparing : list Z;
  activeLineNumber : Z;
  description : string;
  partitionInfo : string
}.

(** The comparison [a <= b] of JavaScript: false as soon as one side is
    [NaN]. *)
Definition js_leb (a b : number) : bool :=
  match a, b with
  | Num x, Num y => x <=? y
  | _, _ => false
  end.

(** What a template literal prints for a value: [`${v}`]. *)
Definition show_number (v : number) : string :=
  match v with
  | Num z => pretty z
  | NaN => "NaN"
  end.

(** [arr[k]]: [None] stands for [undefined]. *)
Definition lookupZ {A} (l : list A) (k : Z) : option A :=
  if k <? 0 then None else l !! Z.to_nat k.

(** ** The monad of the closure: state, [TypeError], recursion budget *)

Inductive outcome (A : Type) : Type :=
  | Ok (a : A)
  | TypeError
  | OutOfFuel.
Arguments Ok {A} a.
Arguments TypeError {A}.
Arguments OutOfFuel {A}.

Record Heap : Type := mkHeap {
  arrayBars : list ArrayBar;
  steps : list Step;
  partitionCount : Z
}.

Definition M (A : Type) : Type := Heap → outcome (A * Heap).

Global Instance M_ret : MRet M := λ A a h, Ok (a, h).
Global Instance M_bind : MBind M := λ A B f m h,
  match m h with
  | Ok (a, h') => f a h'
  | TypeError => TypeError
  | OutOfFuel => OutOfFuel
  end.

Definition outOfFuel {A} : M A := λ _, OutOfFuel.

(** [steps.push(s)] *)
Definition push (s : Step) : M unit := λ h,
  Ok (tt, mkHeap (arrayBars h) (steps h ++ [s]) (partitionCount h)).

(** [partitionCount++] *)
Definition incrPartitionCount : M unit := λ h,
  Ok (tt, mkHeap (arrayBars h) (steps h) (partitionCount h + 1)).

Definition getPartitionCount : M Z := λ h, Ok (partitionCount h, h).

(** The whole array, as read by [arr.map(...)] and [[...arr]]. *)
Definition getArr : M (list ArrayBar) := λ h, Ok (arrayBars h, h).

(** [arr[k]] followed by a property read, as in [arr[k].value]. *)
Definition readArr (k : Z) : M ArrayBar := λ h,
  match lookupZ (arrayBars h) k with
  | Some b => Ok (b, h)
  | None => TypeError
  end.

(** [arr[k] = b] for an index already known to be in range. *)
Definition writeArr (k : Z) (b : ArrayBar) : M unit := λ h,
  Ok (tt, mkHeap (<[Z.to_nat k := b]> (arrayBars h)) (steps h) (partitionCount h)).

(** [[arr[i], arr[j]] = [arr[j], arr[i]]].  At both places where the code
    swaps (lines 106 and 119) the two indices lie between [low] and
    [high], which have been dereferenced before, so that the reads cannot
    fail there. *)
Definition swapArr (i j : Z) : M unit :=
  bj ← readArr j;
  bi ← readArr i;
  writeArr i bj;;
  writeArr j bi.

(** ** Tags derived per snapshot *)

(** Lines 77-81: [idx === high ? 'pivot' : idx >= low && idx <= high ?
    'active' : 'default']. *)
Definition tagPartition (low high : Z) (idx : nat) (bar : ArrayBar) : ArrayBar :=
  mkBar (value bar)
    (if bool_decide (Z.of_nat idx = high) then SPivot
     else if (low <=? Z.of_nat idx) && (Z.of_nat idx <=? high) then SActive
     else SDefault).

(** Lines 91-96: the same with [idx === j ? 'comparing'] in between. *)
Definition tagCompare (low high j : Z) (idx : nat) (bar : ArrayBar) : ArrayBar :=
  mkBar (value bar)
    (if bool_decide (Z.of_nat idx = high) then SPivot
     else if bool_decide (Z.of_nat idx = j) then SComparing
     else if (low <=? Z.of_nat idx) && (Z.of_nat idx <=? high) then SActive
     else SDefault).

(** ** The snapshots *)

Definition initialStep (bars : list ArrayBar) : Step :=
  mkStep bars (-1) [] 1
    "Starting Quick Sort algorithm"
    "Initializing Quick Sort".

Definition partitionStep (arr : list ArrayBar) (low high : Z) : Step :=
  mkStep (imap (tagPartition low high) arr) high [] 2
    ("Working with partition [" +:+ pretty low +:+ " to " +:+ pretty high +:+ "]")
    ("Working on partition [" +:+ pretty low +:+ " to " +:+ pretty high
       +:+ "]. Since partition size == " +:+ pretty (high - low + 1)
       +:+ ", elements inside partition will be sorted.").

Definition compareStep (arr : list ArrayBar) (low high j : Z)
    (vj pivot : number) : Step :=
  mkStep (imap (tagCompare low high j) arr) high [j] 3
    ("Comparing " +:+ show_number vj +:+ " with pivot " +:+ show_number pivot)
    ("Comparing elements in partition [" +:+ pretty low +:+ " to "
       +:+ pretty high +:+ "]").

Definition swapStep (arr : list ArrayBar) (high i j : Z) (vi vj : number) : Step :=
  mkStep arr high [i; j] 4
    ("Swapped " +:+ show_number vi +:+ " and " +:+ show_number vj)
    "Swapping elements to maintain partition order".

Definition pivotStep (arr : list ArrayBar) (i : Z) (pivot : number) (count : Z) : Step :=
  mkStep arr (i + 1) [] 5
    ("Placed pivot " +:+ show_number pivot +:+ " at position " +:+ pretty (i + 1))
    ("Partition " +:+ pretty count +:+ " complete").

Definition finalStep (arr : list ArrayBar) (count : Z) : Step :=
  mkStep ((λ bar, mkBar (value bar) SSorted) <$> arr) (-1) [] 6
    "Array is now sorted!"
    ("Quick Sort complete after " +:+ pretty count +:+ " partitions").

(** ** The engine *)

(** Lines 89-117: [for (let j = low; j < high; j++) { ... }].  Neither [j]
    nor [high] is assigned in the body, so the loop runs a fixed number of
    times; [n] is the number of iterations left, [high - j].  The result
    is the final value of the variable [i]. *)
Fixpoint compareLoop (n : nat) (low high : Z) (pivot : number) (j i : Z) : M Z :=
  match n with
  | O => mret i
  | S n' =>
      arr ← getArr;
      bj ← readArr j;
      push (compareStep arr low high j (value bj) pivot);;
      bj ← readArr j;
      if js_leb (value bj) pivot then
        let i := i + 1 in
        swapArr i j;;
        arr ← getArr;
        bi ← readArr i;
        bj ← readArr j;
        push (swapStep arr high i j (value bi) (value bj));;
        compareLoop n' low high pivot (j + 1) i
      else
        compareLoop n' low high pivot (j + 1) i
  end.

(** Lines 70-133.  The recursion of the source is not structural; [fuel]
    bounds its depth. *)
Fixpoint quickSort (fuel : nat) (low high : Z) : M unit :=
  match fuel with
  | O => outOfFuel
  | S fuel' =>
      if low <? high then
        incrPartitionCount;;
        bh ← readArr high;
        let pivot := value bh in
        let i := low - 1 in
        arr ← getArr;
        push (partitionStep arr low high);;
        i ← compareLoop (Z.to_nat (high - low)) low high pivot low i;
        swapArr (i + 1) high;;
        arr ← getArr;
        count ← getPartitionCount;
        push (pivotStep arr i pivot count);;
        quickSort fuel' low i;;
        quickSort fuel' (i + 2) high
      else mret tt
  end.

(** Line 58: [array.map(value => ({ value, state: 'default' }))]. *)
Definition initialBars (input : list number) : list ArrayBar :=
  (λ v, mkBar v SDefault) <$> input.

(** Lines 56-148, with the recursion budget as a parameter. *)
Definition generateStepsFuel (fuel : nat) (input : list number) : outcome (list Step) :=
  let bars := initialBars input in
  let h0 := mkHeap bars [initialStep bars] 0 in
  match quickSort fuel 0 (Z.of_nat (length bars) - 1) h0 with
  | Ok (_, h) => Ok (steps h ++ [finalStep (arrayBars h) (partitionCount h)])
  | TypeError => TypeError
  | OutOfFuel => OutOfFuel
  end.

(** [generateSteps]: a partition of [n] cells nests at most [n] calls, so
    that [length input + 1] is budget enough ([quickSort_spec]). *)
Definition generateSteps (input : list number) : outcome (list Step) :=
  generateStepsFuel (S (length input)) input.

Definition INITIAL_ARRAY : list number :=
  Num <$> [19; 28; 37; 38; 39; 39; 8; 9].

(** ** Vocabulary of the proofs *)

(** The array after [[arr[i], arr[j]] = [arr[j], arr[i]]], where [bi] and
    [bj] are the former contents of the two cells. *)
Definition swapBars (arr : list ArrayBar) (i j : Z) (bi bj : ArrayBar) : list ArrayBar :=
  <[Z.to_nat j := bi]> (<[Z.to_nat i := bj]> arr).

(** [swaps lo hi arr arr']: [arr'] is reached from [arr] by exchanging
    cells whose indices lie in [lo..hi].  It is the only way the engine
    ever changes its working array. *)
Inductive swaps (lo hi : Z) : list ArrayBar → list ArrayBar → Prop :=
  | swaps_refl arr : swaps lo hi arr arr
  | swaps_step arr i j bi bj arr' :
      lo ≤ i ≤ hi → lo ≤ j ≤ hi →
      lookupZ arr i = Some bi → lookupZ arr j = Some bj →
      swaps lo hi (swapBars arr i j bi bj) arr' →
      swaps lo hi arr arr'.

(** [inRange P arr lo hi]: every cell of [arr] with index in [lo..hi]
    satisfies [P]. *)
Definition inRange (P : ArrayBar → Prop) (arr : list ArrayBar) (lo hi : Z) : Prop :=
  ∀ k b, lo ≤ k ≤ hi → lookupZ arr k = Some b → P b.

(** [sortedRange arr lo hi]: the cells [lo..hi] are in non-decreasing
    order for the comparison of the code. *)
Definition sortedRange (arr : list ArrayBar) (lo hi : Z) : Prop :=
  ∀ k1 k2 b1 b2, lo ≤ k1 → k1 ≤ k2 → k2 ≤ hi →
    lookupZ arr k1 = Some b1 → lookupZ arr k2 = Some b2 →
    js_leb (value b1) (value b2) = true.

Definition isNum (v : number) : Prop := ∃ z, v = Num z.

(** The order [a <= b] of the code, as a relation. *)
Definition js_le (a b : number) : Prop := js_leb a b = true.

Definition allTagged (t : BarState) (arr : list ArrayBar) : Prop :=
  Forall (λ b, state b = t) arr.

(** [reach arr0 arr]: some sequence of exchanges leads from [arr0] to
    [arr]. *)
Definition reach (arr0 arr : list ArrayBar) : Prop :=
  ∃ lo hi, swaps lo hi arr0 arr.

(** [emitted arr0 s]: [s] is one of the four snapshots that [quickSort]
    pushes, taken of an array reached from [arr0], for a partition
    [low..high] that lies inside the array. *)
Inductive emitted (arr0 : list ArrayBar) : Step → Prop :=
  | emitted_partition arr low high :
      reach arr0 arr →
      0 ≤ low → low < high → high < Z.of_nat (length arr) →
      emitted arr0 (partitionStep arr low high)
  | emitted_compare arr low high j bj pivot :
      reach arr0 arr →
      0 ≤ low → low ≤ j → j < high → high < Z.of_nat (length arr) →
      lookupZ arr j = Some bj →
      emitted arr0 (compareStep arr low high j (value bj) pivot)
  | emitted_swap arr low high i j bi bj :
      reach arr0 arr →
      0 ≤ low → low ≤ i → i ≤ j → j < high → high < Z.of_nat (length arr) →
      lookupZ arr i = Some bi → lookupZ arr j = Some bj →
      emitted arr0 (swapStep arr high i j (value bi) (value bj))
  | emitted_pivot arr low high i b count :
      reach arr0 arr →
      0 ≤ low → low ≤ i + 1 → i + 1 ≤ high → high < Z.of_nat (length arr) →
      lookupZ arr (i + 1) = Some b →
      emitted arr0 (pivotStep arr i (value b) count).

(** The two sides of a pivot. *)
Definition lePivot (pivot : number) (b : ArrayBar) : Prop :=
  js_leb (value b) pivot = true.
Definition gtPivot (pivot : number) (b : ArrayBar) : Prop :=
  js_leb (value b) pivot = false.

(** The trace of a completed run, and the state after a completed call. *)
Definition traceOf (r : outcome (list Step)) : list Step :=
  match r with Ok t => t | _ => [] end.

Definition heapOf (r : outcome (unit * Heap)) : Heap :=
  match r with Ok (_, h) => h | _ => mkHeap [] [] 0 end.

(** The snapshot number [k] of a trace. *)
Definition stepAt (k : nat) (t : list Step) : Step :=
  match t !! k with Some s => s | None => initialStep [] end.

Ltac unfold_M :=
  unfold mbind, M_bind, mret, M_ret, swapArr, readArr, writeArr, push, getArr,
    getPartitionCount, incrPartitionCount, outOfFuel; simpl.

(** ** The run of the engine as a relation *)

(** [loopRun low high pivot j i arr new i' arr']: the comparison loop
    (lines 89-117), entered at [j] with boundary [i] and array [arr],
    pushes the snapshots [new] and ends with boundary [i'] and array
    [arr']. *)
Inductive loopRun (low high : Z) (pivot : number) :
    Z → Z → list ArrayBar → list Step → Z → list ArrayBar → Prop :=
  | loopRun_done j i arr :
      high ≤ j →
      loopRun low high pivot j i arr [] i arr
  | loopRun_swap j i arr bj bi new i' arr' :
      j < high →
      lookupZ arr j = Some bj →
      js_leb (value bj) pivot = true →
      lookupZ arr (i + 1) = Some bi →
      loopRun low high pivot (j + 1) (i + 1) (swapBars arr (i + 1) j bi bj) new i' arr' →
      loopRun low high pivot j i arr
        (compareStep arr low high j (value bj) pivot
           :: swapStep (swapBars arr (i + 1) j bi bj) high (i + 1) j (value bj) (value bi)
           :: new) i' arr'
  | loopRun_keep j i arr bj new i' arr' :
      j < high →
      lookupZ arr j = Some bj →
      js_leb (value bj) pivot = false →
      loopRun low high pivot (j + 1) i arr new i' arr' →
      loopRun low high pivot j i arr
        (compareStep arr low high j (value bj) pivot :: new) i' arr'.

(** [qsRun low high arr c new arr' c']: the call [quickSort(arr, low,
    high)] (lines 70-133), made with [partitionCount = c], pushes the
    snapshots [new] and returns with array [arr'] and counter [c']. *)
Inductive qsRun : Z → Z → list ArrayBar → Z → list Step → list ArrayBar → Z → Prop :=
  | qsRun_base low high arr c :
      high ≤ low →
      qsRun low high arr c [] arr c
  | qsRun_part low high arr c bh new1 i arr1 bh' bi new3 arr3 c3 new4 arr4 c4 :
      low < high →
      lookupZ arr high = Some bh →
      loopRun low high (value bh) low (low - 1) arr new1 i arr1 →
      lookupZ arr1 high = Some bh' →
      lookupZ arr1 (i + 1) = Some bi →
      qsRun low i (swapBars arr1 (i + 1) high bi bh') (c + 1) new3 arr3 c3 →
      qsRun (i + 2) high arr3 c3 new4 arr4 c4 →
      qsRun low high arr c
        (partitionStep arr low high
           :: new1
           ++ pivotStep (swapBars arr1 (i + 1) high bi bh') i (value bh) (c + 1)
           :: new3 ++ new4) arr4 c4.

(** [shot lo hi arr0 s]: [s] is one of the four snapshots that [quickSort]
    pushes, for a partition [low..high] inside [lo..hi], taken of an array
    that exchanges inside [lo..hi] lead to from [arr0]; the values that
    its narration names are those of the cells that it lists. *)
Inductive shot (lo hi : Z) (arr0 : list ArrayBar) : Step → Prop :=
  | shot_partition arr low high bh :
      swaps lo hi arr0 arr →
      lo ≤ low → low < high → high ≤ hi →
      lookupZ arr high = Some bh →
      shot lo hi arr0 (partitionStep arr low high)
  | shot_compare arr low high j bj bh :
      swaps lo hi arr0 arr →
      lo ≤ low → low ≤ j → j < high → high ≤ hi →
      lookupZ arr j = Some bj → lookupZ arr high = Some bh →
      shot lo hi arr0 (compareStep arr low high j (value bj) (value bh))
  | shot_swap arr low high i j bi bj bh :
      swaps lo hi arr0 arr →
      lo ≤ low → low ≤ i → i ≤ j → j < high → high ≤ hi →
      lookupZ arr i = Some bi → lookupZ arr j = Some bj →
      lookupZ arr high = Some bh →
      shot lo hi arr0 (swapStep arr high i j (value bi) (value bj))
  | shot_pivot arr low high i b count :
      swaps lo hi arr0 arr →
      lo ≤ low → low ≤ i + 1 → i + 1 ≤ high → high ≤ hi →
      lookupZ arr (i + 1) = Some b →
      shot lo hi arr0 (pivotStep arr i (value b) count).

(** A snapshot [s'] shows, in the cell where [s] has its pivot, the value
    that [s] shows there. *)
Definition agrees (s s' : Step) : Prop :=
  value <$> lookupZ (array s') (pivotIndex s) = value <$> lookupZ (array s) (pivotIndex s).

(** Every pivot-placed snapshot of [l] is agreed with by all the
    snapshots after it. *)
Fixpoint settled (l : list Step) : Prop :=
  match l with
  | [] => True
  | s :: l' => (activeLineNumber s = 5 → Forall (agrees s) l') ∧ settled l'
  end.

(** [runsTo input t]: [t] is the trace of a run of [generateSteps] on
    [input], as the relation [qsRun] allows it: the initial snapshot, the
    snapshots of a call on the whole array, the terminal snapshot.  A
    program that drew anything at random would have several traces for
    one input. *)
Definition runsTo (input : list number) (t : list Step) : Prop :=
  ∃ new arr c,
    t = initialStep (initialBars input) :: new ++ [finalStep arr c] ∧
    qsRun 0 (Z.of_nat (length input) - 1) (initialBars input) 0 new arr c.

(** The snapshot that comes after the list [l], when [nxt] comes after
    the list itself. *)
Definition nextOf (nxt : option Step) (l : list Step) : option Step :=
  match l with
  | [] => nxt
  | s :: _ => Some s
  end.

(** [answered arr0 cmp nxt]: [cmp] is the comparison snapshot of a cell
    [j] with the pivot in the cell [high], taken of an array [arr]
    reached from [arr0], and [nxt] is what the test of line 104 makes
    follow it: when [arr[j].value <= pivot], the swap snapshot, which is
    the array after the exchange of the cells [i] and [j]; otherwise
    anything but a swap snapshot. *)
Inductive answered (arr0 : list ArrayBar) (cmp : Step) (nxt : option Step) : Prop :=
  | answered_swap arr low high i j bi bj bh :
      reach arr0 arr →
      cmp = compareStep arr low high j (value bj) (value bh) →
      lookupZ arr j = Some bj → lookupZ arr high = Some bh →
      lookupZ arr i = Some bi →
      low ≤ i → i ≤ j → j < high →
      js_leb (value bj) (value bh) = true →
      nxt = Some (swapStep (swapBars arr i j bi bj) high i j (value bj) (value bi)) →
      answered arr0 cmp nxt
  | answered_keep arr low high j bj bh :
      reach arr0 arr →
      cmp = compareStep arr low high j (value bj) (value bh) →
      lookupZ arr j = Some bj → lookupZ arr high = Some bh →
      low ≤ j → j < high →
      js_leb (value bj) (value bh) = false →
      (∀ s, nxt = Some s → activeLineNumber s ≠ 4) →
      answered arr0 cmp nxt.

(** Every comparison snapshot of [l] is answered by the snapshot after
    it, [nxt] being the one after [l]. *)
Fixpoint followedBy (arr0 : list ArrayBar) (nxt : option Step) (l : list Step) : Prop :=
  match l with
  | [] => True
  | s :: l' =>
      (activeLineNumber s = 3 → answered arr0 s (nextOf nxt l')) ∧
      followedBy arr0 nxt l'
  end.

(** Line 127: the note of the pivot-placed snapshot of partition [k]. *)
Definition partitionNote (k : Z) : string :=
  "Partition " +:+ pretty k +:+ " complete".

(** The largest and the smallest number of snapshots that a range of [m]
    cells can give rise to. *)
Definition maxSteps (m : Z) : Z := if m <=? 1 then 0 else m * m + m - 2.
Definition minSteps (m : Z) : Z := if m <=? 1 then 0 else m + 1.

(** ** The component (App.tsx, lines 44-50 and 150-196) *)

(** The state of [QuickSortVisualizer] is its six [useState] cells.  An
    event handler runs to its end before the next render, so that each
    handler is one transition on the state; the arrays that
    [generateRandomArray] draws are an argument of the handlers that call
    it.  The timer of the playback effect is cleared whenever one of the
    cells it depends on changes, so that it fires only in the state that
    armed it. *)
Module Visualizer.

Record State : Type := mkState {
  steps : list Step;
  currentStepIndex : Z;
  isPlaying : bool;
  showInfo : bool;
  animationSpeed : Z;
  arraySize : Z
}.

Definition DEFAULT_ANIMATION_SPEED : Z := 1000.

(** Lines 45-50. *)
Definition initial : State :=
  mkState [] 0 false false DEFAULT_ANIMATION_SPEED 8.

Definition setSteps (t : list Step) (s : State) : State :=
  mkState t (currentStepIndex s) (isPlaying s) (showInfo s) (animationSpeed s) (arraySize s).
Definition setCurrentStepIndex (k : Z) (s : State) : State :=
  mkState (steps s) k (isPlaying s) (showInfo s) (animationSpeed s) (arraySize s).
Definition setIsPlaying (b : bool) (s : State) : State :=
  mkState (steps s) (currentStepIndex s) b (showInfo s) (animationSpeed s) (arraySize s).
Definition setShowInfo (b : bool) (s : State) : State :=
  mkState (steps s) (currentStepIndex s) (isPlaying s) b (animationSpeed s) (arraySize s).
Definition setAnimationSpeed (v : Z) (s : State) : State :=
  mkState (steps s) (currentStepIndex s) (isPlaying s) (showInfo s) v (arraySize s).
Definition setArraySize (n : Z) (s : State) : State :=
  mkState (steps s) (currentStepIndex s) (isPlaying s) (showInfo s) (animationSpeed s) n.

(** The trace of some input: what [steps] holds once mounted. *)
Definition isTrace (t : list Step) : Prop :=
  ∃ input, generateSteps input = Ok t.

(** [steps.length - 1] *)
Definition lastIndex (s : State) : Z := Z.of_nat (length (steps s)) - 1.

(** [setSteps(generateSteps(array))] *)
Definition loadSteps (input : list number) (s : State) : outcome State :=
  match generateSteps input with
  | Ok t => Ok (setSteps t s)
  | TypeError => TypeError
  | OutOfFuel => OutOfFuel
  end.

(** The state that a handler returns. *)
Definition stateOf (r : outcome State) : State :=
  match r with Ok s => s | _ => initial end.

(** Line 166: [steps[currentStepIndex] || steps[0]]; a [Step] is an
    object, hence truthy, so that the right operand is taken exactly when
    the left one is [undefined]. *)
Definition currentStep (s : State) : option Step :=
  match lookupZ (steps s) (currentStepIndex s) with
  | Some st => Some st
  | None => steps s !! 0%nat
  end.

(** Lines 168-170. *)
Definition handlePlayPause (s : State) : State :=
  setIsPlaying (negb (isPlaying s)) s.

(** Lines 172-175. *)
Definition handleReset (s : State) : State :=
  setIsPlaying false (setCurrentStepIndex 0 s).

(** Lines 177-182, [newArray] being what [generateRandomArray()] drew. *)
Definition handleRandomize (newArray : list number) (s : State) : outcome State :=
  loadSteps newArray (setCurrentStepIndex 0 (setIsPlaying false s)).

(** Lines 184-189. *)
Definition handleStepForward (s : State) : State :=
  if currentStepIndex s <? lastIndex s
  then setIsPlaying false (setCurrentStepIndex (currentStepIndex s + 1) s)
  else s.

(** Lines 191-196. *)
Definition handleStepBackward (s : State) : State :=
  if 0 <? currentStepIndex s
  then setIsPlaying false (setCurrentStepIndex (currentStepIndex s - 1) s)
  else s.

(** Lines 305-309: the [onChange] of the size menu, [newArray] being what
    [generateRandomArray(newSize)] drew. *)
Definition handleSizeChange (newSize : Z) (newArray : list number) (s : State) : outcome State :=
  loadSteps newArray (setArraySize newSize s).

(** Lines 150-152: the effect run once, on mount. *)
Definition mountEffect (s : State) : outcome State :=
  loadSteps INITIAL_ARRAY s.

(** Lines 154-164: the playback effect.  [timerArmed] is the test under
    which it sets the timeout; otherwise it pauses at the end of the
    trace. *)
Definition timerArmed (s : State) : bool :=
  isPlaying s && (currentStepIndex s <? lastIndex s).

Definition playbackEffect (s : State) : State :=
  if timerArmed s then s
  else if lastIndex s <=? currentStepIndex s then setIsPlaying false s
  else s.

(** The timeout of line 157 goes off: [setCurrentStepIndex(prev => prev + 1)].
    With no timer armed there is nothing to go off, and the state stays
    as it is. *)
Definition timerFires (s : State) : State :=
  if timerArmed s then setCurrentStepIndex (currentStepIndex s + 1) s else s.

(** What the user and the timer can do: the five buttons (lines
    324-361), the info button (line 204), the speed slider (line 295),
    the size menu (line 305) and the timeout. *)
Inductive event : Type :=
  | PlayPause
  | Reset
  | Randomize (newArray : list number)
  | StepForward
  | StepBackward
  | ToggleInfo
  | SpeedChange (v : Z)
  | SizeChange (newSize : Z) (newArray : list number)
  | Timeout.

Definition handle (e : event) (s : State) : outcome State :=
  match e with
  | PlayPause => Ok (handlePlayPause s)
  | Reset => Ok (handleReset s)
  | Randomize newArray => handleRandomize newArray s
  | StepForward => Ok (handleStepForward s)
  | StepBackward => Ok (handleStepBackward s)
  | ToggleInfo => Ok (setShowInfo (negb (showInfo s)) s)
  | SpeedChange v => Ok (setAnimationSpeed v s)
  | SizeChange newSize newArray => handleSizeChange newSize newArray s
  | Timeout => Ok (timerFires s)
  end.

(** An event, then the playback effect of the render that follows. *)
Definition react (e : event) (s : State) : outcome State :=
  match handle e s with
  | Ok s' => Ok (playbackEffect s')
  | TypeError => TypeError
  | OutOfFuel => OutOfFuel
  end.

(** One period of playback: the timeout, then the effect. *)
Definition tick (s : State) : State := playbackEffect (timerFires s).

(** [keepsSize] tells the events other than a change of size. *)
Definition keepsSize (e : event) : Prop :=
  match e with SizeChange _ _ => False | _ => True end.

(** The states in which the component comes to rest, from the mount
    effect on: the render after the mount effect once its playback effect
    has run, then, after each event, the render whose playback effect has
    run.  They are the states in which the next event finds the
    component; the renders before them are in [rendered] below. *)
Inductive reachable : State → Prop :=
  | reachable_mount s :
      mountEffect initial = Ok s →
      reachable (playbackEffect s)
  | reachable_react e s s' :
      reachable s → react e s = Ok s' → reachable s'.

(** The same without any change of size. *)
Inductive reachableSameSize : State → Prop :=
  | reachableSameSize_mount s :
      mountEffect initial = Ok s →
      reachableSameSize (playbackEffect s)
  | reachableSameSize_react e s s' :
      reachableSameSize s → keepsSize e → react e s = Ok s' → reachableSameSize s'.


(** The same without any change of size. *)
Inductive renderedSameSize : State → Prop :=
  | renderedSameSize_first :
      renderedSameSize initial
  | renderedSameSize_mount s :
      mountEffect initial = Ok s → renderedSameSize s
  | renderedSameSize_event e s s' :
      reachableSameSize s → keepsSize e → handle e s = Ok s' → renderedSameSize s'
  | renderedSameSize_rest s :
      reachableSameSize s → renderedSameSize s.

End Visualizer.

(** ** Arrays indexed by [Z] *)

Section lookupZ.
Context {A : Type}.
Implicit Types (l : list A) (k : Z).

Lemma lookupZ_Some l k x :
  lookupZ l k = Some x ↔ 0 ≤ k ∧ l !! Z.to_nat k = Some x.
Proof.
  unfold lookupZ. destruct (Z.ltb_spec k 0); split; try (intros [??]); try done; lia.
Qed.

Lemma lookupZ_bounds l k x : lookupZ l k = Some x → 0 ≤ k < Z.of_nat (length l).
Proof.
  rewrite lookupZ_Some. intros [? Hl]. apply lookup_lt_Some in Hl. lia.
Qed.

Lemma lookupZ_is_Some l k : 0 ≤ k < Z.of_nat (length l) → ∃ x, lookupZ l k = Some x.
Proof.
  intros Hk. destruct (lookup_lt_is_Some_2 l (Z.to_nat k)) as [x Hx]; [lia|].
  exists x. apply lookupZ_Some. split; [lia|done].
Qed.

Lemma lookupZ_of_nat l (n : nat) : lookupZ l (Z.of_nat n) = l !! n.
Proof.
  unfold lookupZ. destruct (Z.ltb_spec (Z.of_nat n) 0); [lia|]. by rewrite Nat2Z.id.
Qed.

Lemma lookupZ_insert l k i x :
  0 ≤ i < Z.of_nat (length l) →
  lookupZ (<[Z.to_nat i := x]> l) k = if decide (k = i) then Some x else lookupZ l k.
Proof.
  intros Hi. unfold lookupZ. destruct (Z.ltb_spec k 0).
  - destruct (decide (k = i)); [lia|done].
  - destruct (decide (k = i)) as [->|Hne].
    + apply list_lookup_insert_eq. lia.
    + apply list_lookup_insert_ne. lia.
Qed.
End lookupZ.

Lemma lookupZ_fmap {A B} (f : A → B) (l : list A) k :
  lookupZ (f <$> l) k = f <$> lookupZ l k.
Proof. unfold lookupZ. destruct (k <? 0); [done|]. apply list_lookup_fmap. Qed.

(** ** One exchange *)

Section swapBars.
Implicit Types (arr : list ArrayBar) (i j k : Z).

Lemma swapBars_length arr i j bi bj :
  length (swapBars arr i j bi bj) = length arr.
Proof. unfold swapBars. by rewrite !length_insert. Qed.

Lemma swapBars_lookup arr i j bi bj k :
  lookupZ arr i = Some bi → lookupZ arr j = Some bj →
  lookupZ (swapBars arr i j bi bj) k =
    if decide (k = j) then Some bi
    else if decide (k = i) then Some bj
    else lookupZ arr k.
Proof.
  intros Hi Hj. unfold swapBars.
  apply lookupZ_bounds in Hi as ?. apply lookupZ_bounds in Hj as ?.
  rewrite lookupZ_insert by (rewrite length_insert; lia).
  destruct (decide (k = j)); [done|].
  by rewrite lookupZ_insert by lia.
Qed.

Lemma swapBars_same arr i bi :
  lookupZ arr i = Some bi → swapBars arr i i bi bi = arr.
Proof.
  intros [? Hi]%lookupZ_Some. unfold swapBars.
  rewrite list_insert_insert_eq. by apply list_insert_id.
Qed.

Lemma swapBars_Permutation arr i j bi bj :
  lookupZ arr i = Some bi → lookupZ arr j = Some bj →
  swapBars arr i j bi bj ≡ₚ arr.
Proof.
  intros Hi Hj. apply Permutation_inj. split; [apply swapBars_length|].
  apply lookupZ_bounds in Hi as ?. apply lookupZ_bounds in Hj as ?.
  exists (λ n, if decide (n = Z.to_nat j) then Z.to_nat i
               else if decide (n = Z.to_nat i) then Z.to_nat j else n).
  split.
  - intros n m. repeat case_decide; lia.
  - intros n. rewrite <-!lookupZ_of_nat.
    rewrite (swapBars_lookup _ _ _ _ _ _ Hi Hj).
    destruct (decide (Z.of_nat n = j)) as [<-|].
    + rewrite Nat2Z.id, decide_True by done.
      by rewrite <-Hi, Z2Nat.id by lia.
    + rewrite (decide_False (P := n = Z.to_nat j)) by lia.
      destruct (decide (Z.of_nat n = i)) as [<-|].
      * rewrite Nat2Z.id, decide_True by done.
        by rewrite <-Hj, Z2Nat.id by lia.
      * by rewrite (decide_False (P := n = Z.to_nat i)) by lia.
Qed.
End swapBars.

(** ** Sequences of exchanges *)

Section swaps.
Implicit Types (arr : list ArrayBar) (lo hi : Z).

Lemma swaps_one lo hi arr i j bi bj :
  lo ≤ i ≤ hi → lo ≤ j ≤ hi →
  lookupZ arr i = Some bi → lookupZ arr j = Some bj →
  swaps lo hi arr (swapBars arr i j bi bj).
Proof. intros. apply (swaps_step _ _ _ i j bi bj); auto using swaps_refl. Qed.

Lemma swaps_trans lo hi arr1 arr2 arr3 :
  swaps lo hi arr1 arr2 → swaps lo hi arr2 arr3 → swaps lo hi arr1 arr3.
Proof.
  induction 1 as [|arr i j bi bj arr' ???? _ IH]; [done|].
  intros. apply (swaps_step _ _ _ i j bi bj); auto.
Qed.

Lemma swaps_mono lo hi lo' hi' arr arr' :
  lo' ≤ lo → hi ≤ hi' → swaps lo hi arr arr' → swaps lo' hi' arr arr'.
Proof.
  intros ??. induction 1 as [|arr i j bi bj arr' ???? _ IH]; [apply swaps_refl|].
  apply (swaps_step _ _ _ i j bi bj); auto; lia.
Qed.

Lemma swaps_length lo hi arr arr' :
  swaps lo hi arr arr' → length arr' = length arr.
Proof.
  induction 1 as [|arr i j bi bj arr' ?? Hi Hj _ IH]; [done|].
  by rewrite IH, swapBars_length.
Qed.

Lemma swaps_Permutation lo hi arr arr' :
  swaps lo hi arr arr' → arr' ≡ₚ arr.
Proof.
  induction 1 as [|arr i j bi bj arr' ?? Hi Hj _ IH]; [done|].
  rewrite IH. by apply swapBars_Permutation.
Qed.

(** Cells outside [lo..hi] are left alone. *)
Lemma swaps_frame lo hi arr arr' k :
  swaps lo hi arr arr' → k < lo ∨ hi < k → lookupZ arr' k = lookupZ arr k.
Proof.
  induction 1 as [|arr i j bi bj arr' ?? Hi Hj _ IH]; [done|].
  intros Hk. rewrite IH by done.
  rewrite (swapBars_lookup _ _ _ _ _ _ Hi Hj).
  by rewrite !decide_False by lia.
Qed.

(** What holds of all the cells [lo..hi] still does afterwards. *)
Lemma swaps_inRange P lo hi arr arr' :
  swaps lo hi arr arr' → inRange P arr lo hi → inRange P arr' lo hi.
Proof.
  induction 1 as [|arr i j bi bj arr' ?? Hi Hj _ IH]; [done|].
  intros HP. apply IH. intros k b Hk.
  rewrite (swapBars_lookup _ _ _ _ _ _ Hi Hj).
  repeat case_decide; intros; simplify_eq; eauto.
Qed.

Lemma swaps_allTagged lo hi t arr arr' :
  swaps lo hi arr arr' → allTagged t arr → allTagged t arr'.
Proof.
  intros Hs%swaps_Permutation. unfold allTagged. by rewrite Hs.
Qed.
End swaps.

(** ** The engine, one iteration and one call at a time *)

(** One turn of the comparison loop, with the state written out. *)
Lemma compareLoop_S n low high pivot j i h :
  compareLoop (S n) low high pivot j i h =
  match lookupZ (arrayBars h) j with
  | None => TypeError
  | Some bj =>
      let s1 := compareStep (arrayBars h) low high j (value bj) pivot in
      if js_leb (value bj) pivot then
        match lookupZ (arrayBars h) (i + 1) with
        | None => TypeError
        | Some bi =>
            let arr' := swapBars (arrayBars h) (i + 1) j bi bj in
            let s2 := swapStep arr' high (i + 1) j (value bj) (value bi) in
            compareLoop n low high pivot (j + 1) (i + 1)
              (mkHeap arr' ((steps h ++ [s1]) ++ [s2]) (partitionCount h))
        end
      else
        compareLoop n low high pivot (j + 1) i
          (mkHeap (arrayBars h) (steps h ++ [s1]) (partitionCount h))
  end.
Proof.
  simpl. unfold_M.
  destruct (lookupZ (arrayBars h) j) as [bj|] eqn:Hj; [simpl|done].
  rewrite Hj. simpl.
  destruct (js_leb (value bj) pivot); [|done].
  unfold_M. rewrite Hj. simpl.
  destruct (lookupZ (arrayBars h) (i + 1)) as [bi|] eqn:Hi; [simpl|done].
  fold (swapBars (arrayBars h) (i + 1) j bi bj).
  assert (lookupZ (swapBars (arrayBars h) (i + 1) j bi bj) (i + 1) = Some bj) as ->.
  { rewrite (swapBars_lookup _ _ _ _ _ _ Hi Hj).
    destruct (decide (i + 1 = j)) as [Heq|]; [|by rewrite decide_True].
    rewrite Heq in Hi. congruence. }
  simpl.
  assert (lookupZ (swapBars (arrayBars h) (i + 1) j bi bj) j = Some bi) as ->.
  { rewrite (swapBars_lookup _ _ _ _ _ _ Hi Hj). by rewrite decide_True. }
  done.
Qed.

(** One call of [quickSort] on a range of at least two cells. *)
Lemma quickSort_S fuel low high h :
  quickSort (S fuel) low high h =
  if low <? high then
    match lookupZ (arrayBars h) high with
    | None => TypeError
    | Some bh =>
        let h0 := mkHeap (arrayBars h)
                    (steps h ++ [partitionStep (arrayBars h) low high])
                    (partitionCount h + 1) in
        match compareLoop (Z.to_nat (high - low)) low high (value bh) low (low - 1) h0 with
        | Ok (i, h1) =>
            match lookupZ (arrayBars h1) high, lookupZ (arrayBars h1) (i + 1) with
            | Some bh', Some bi =>
                let arr' := swapBars (arrayBars h1) (i + 1) high bi bh' in
                let h2 := mkHeap arr'
                            (steps h1 ++ [pivotStep arr' i (value bh) (partitionCount h1)])
                            (partitionCount h1) in
                match quickSort fuel low i h2 with
                | Ok (_, h3) => quickSort fuel (i + 2) high h3
                | TypeError => TypeError
                | OutOfFuel => OutOfFuel
                end
            | _, _ => TypeError
            end
        | TypeError => TypeError
        | OutOfFuel => OutOfFuel
        end
    end
  else Ok (tt, h).
Proof.
  simpl. destruct (low <? high); [|done].
  unfold_M.
  destruct (lookupZ (arrayBars h) high) as [bh|]; [simpl|done].
  destruct (compareLoop _ _ _ _ _ _ _) as [[i h1]| |]; [|done..].
  unfold_M.
  destruct (lookupZ (arrayBars h1) high) as [bh'|]; [simpl|done].
  destruct (lookupZ (arrayBars h1) (i + 1)) as [bi|]; [simpl|done].
  done.
Qed.

Section reach.
Implicit Types (arr : list ArrayBar).

Lemma reach_refl arr : reach arr arr.
Proof. exists 0, 0. apply swaps_refl. Qed.

Lemma swaps_reach lo hi arr arr' : swaps lo hi arr arr' → reach arr arr'.
Proof. intros. by exists lo, hi. Qed.

Lemma reach_trans arr1 arr2 arr3 : reach arr1 arr2 → reach arr2 arr3 → reach arr1 arr3.
Proof.
  intros (lo1 & hi1 & H1) (lo2 & hi2 & H2).
  exists (lo1 `min` lo2), (hi1 `max` hi2).
  eapply swaps_trans; (eapply swaps_mono; [| |done]); lia.
Qed.

Lemma reach_length arr arr' : reach arr arr' → length arr' = length arr.
Proof. intros (?&?&?). by eapply swaps_length. Qed.

Lemma reach_Permutation arr arr' : reach arr arr' → arr' ≡ₚ arr.
Proof. intros (?&?&?). by eapply swaps_Permutation. Qed.

Lemma reach_allTagged t arr arr' : reach arr arr' → allTagged t arr → allTagged t arr'.
Proof. intros (?&?&?). by eapply swaps_allTagged. Qed.

Lemma emitted_reach arr0 arr s : reach arr0 arr → emitted arr s → emitted arr0 s.
Proof.
  intros Hr. destruct 1.
  - eapply emitted_partition; eauto using reach_trans.
  - eapply emitted_compare; eauto using reach_trans.
  - eapply emitted_swap; eauto using reach_trans.
  - eapply emitted_pivot; eauto using reach_trans.
Qed.

Lemma Forall_emitted_reach arr0 arr l :
  reach arr0 arr → Forall (emitted arr) l → Forall (emitted arr0) l.
Proof. intros ? Hl. eapply Forall_impl; [done|]. eauto using emitted_reach. Qed.
End reach.

Global Arguments compareLoop : simpl never.
Global Arguments quickSort : simpl never.

(** ** The comparison loop *)

(** The loop started at [j] with boundary [i] always completes;
    the boundary moves up by at most one per iteration; the array is
    changed by exchanges inside [i+1..high-1] only; and if the cells
    [i+1..j-1] were beyond the pivot at the start, then at the end the
    cells [i+1..i'] are within the pivot and the cells [i'+1..high-1]
    beyond it. *)
Lemma compareLoop_spec n : ∀ low high pivot j i h,
  0 ≤ low → low - 1 ≤ i → i < j → j + Z.of_nat n = high →
  high < Z.of_nat (length (arrayBars h)) →
  ∃ i' h',
    compareLoop n low high pivot j i h = Ok (i', h') ∧
    i ≤ i' ≤ i + Z.of_nat n ∧
    swaps (i + 1) (high - 1) (arrayBars h) (arrayBars h') ∧
    partitionCount h' = partitionCount h ∧
    (∃ new, steps h' = steps h ++ new ∧ Forall (emitted (arrayBars h)) new) ∧
    (inRange (gtPivot pivot) (arrayBars h) (i + 1) (j - 1) →
     inRange (lePivot pivot) (arrayBars h') (i + 1) i' ∧
     inRange (gtPivot pivot) (arrayBars h') (i' + 1) (high - 1)).
Proof.
  induction n as [|n IH]; intros low high pivot j i h Hlow Hi Hij Hn Hhigh.
  { exists i, h. split_and!; [done|lia|lia|apply swaps_refl|done| |].
    - exists []. by rewrite app_nil_r.
    - intros Hgt. split; [intros k b ?; lia|].
      intros k b ?. apply Hgt. lia. }
  rewrite compareLoop_S.
  destruct (lookupZ_is_Some (arrayBars h) j) as [bj Hj]; [lia|]. rewrite Hj.
  set (s1 := compareStep _ _ _ _ _ _).
  assert (emitted (arrayBars h) s1) as Hs1.
  { eapply emitted_compare; eauto using reach_refl; lia. }
  cbv zeta.
  destruct (js_leb (value bj) pivot) eqn:Hle.
  - destruct (lookupZ_is_Some (arrayBars h) (i + 1)) as [bi Hbi]; [lia|]. rewrite Hbi.
    set (arr' := swapBars _ _ _ _ _). set (s2 := swapStep _ _ _ _ _ _).
    assert (swaps (i + 1) (high - 1) (arrayBars h) arr') as Hsw.
    { apply swaps_one; auto; lia. }
    assert (lookupZ arr' (i + 1) = Some bj) as Hi'.
    { unfold arr'. rewrite (swapBars_lookup _ _ _ _ _ _ Hbi Hj).
      destruct (decide (i + 1 = j)) as [Heq|]; [|by rewrite decide_True].
      rewrite Heq in Hbi. congruence. }
    assert (lookupZ arr' j = Some bi) as Hj'.
    { unfold arr'. rewrite (swapBars_lookup _ _ _ _ _ _ Hbi Hj). by rewrite decide_True. }
    assert (emitted (arrayBars h) s2) as Hs2.
    { eapply (emitted_swap _ arr' low high (i + 1) j bj bi);
        eauto using swaps_reach; try lia.
      unfold arr'. rewrite swapBars_length. lia. }
    destruct (IH low high pivot (j + 1) (i + 1)
                (mkHeap arr' ((steps h ++ [s1]) ++ [s2]) (partitionCount h)))
      as (i' & h' & Hrun & Hbound & Hsw' & Hcnt & (new & Hnew & Hem) & Hlom);
      simpl; [lia..| |].
    { unfold arr'. rewrite swapBars_length. lia. }
    simpl in *. exists i', h'. split_and!; [done|lia|lia| |done| |].
    + eapply swaps_trans; [done|]. eapply swaps_mono; [| |done]; lia.
    + exists ([s1; s2] ++ new). split.
      * rewrite Hnew. by rewrite <-!app_assoc.
      * apply Forall_app. split; [by repeat first [apply Forall_nil_2 | apply Forall_cons_2]|].
        eapply Forall_emitted_reach; [|done]. by eapply swaps_reach.
    + intros Hgt. destruct Hlom as [Hl Hg].
      { intros k b Hk. unfold arr'. rewrite (swapBars_lookup _ _ _ _ _ _ Hbi Hj).
        destruct (decide (k = j)) as [->|].
        - intros [= <-]. apply (Hgt (i + 1)); [lia|done].
        - rewrite decide_False by lia. apply Hgt. lia. }
      split; [|done].
      intros k b Hk Hb. destruct (decide (k = i + 1)) as [->|].
      * rewrite (swaps_frame _ _ _ _ _ Hsw') in Hb by lia.
        rewrite Hi' in Hb. by simplify_eq.
      * apply (Hl k); [lia|done].
  - destruct (IH low high pivot (j + 1) i
                (mkHeap (arrayBars h) (steps h ++ [s1]) (partitionCount h)))
      as (i' & h' & Hrun & Hbound & Hsw' & Hcnt & (new & Hnew & Hem) & Hlom);
      simpl; [lia..|].
    simpl in *. exists i', h'. split_and!; [done|lia|lia|done|done| |].
    + exists ([s1] ++ new). split.
      * rewrite Hnew. by rewrite <-!app_assoc.
      * apply Forall_app. split; [by repeat first [apply Forall_nil_2 | apply Forall_cons_2]|done].
    + intros Hgt. apply Hlom.
      intros k b Hk Hb. destruct (decide (k = j)) as [->|].
      * rewrite Hj in Hb. by simplify_eq.
      * apply (Hgt k); [lia|done].
Qed.

(** ** The order of the code on numbers *)

Lemma js_leb_refl v : isNum v → js_leb v v = true.
Proof. intros [z ->]. simpl. lia. Qed.

Lemma js_leb_le_gt a b p :
  js_leb a p = true → js_leb b p = false → isNum b → js_leb a b = true.
Proof.
  intros Ha Hb [z ->]. destruct a as [x|], p as [y|]; simpl in *; try done. lia.
Qed.

Lemma js_leb_gt b p :
  js_leb b p = false → isNum b → isNum p → js_leb p b = true.
Proof. intros Hb [z ->] [y ->]. simpl in *. lia. Qed.

(** ** The recursion *)

(** With a budget above the size of the range, [quickSort] completes; it
    changes the array by exchanges inside [low..high] only; everything it
    pushes is a snapshot of an array reached from the initial one; and a
    range of numbers ends up in non-decreasing order. *)
Lemma quickSort_spec fuel : ∀ low high h,
  0 ≤ low → high < Z.of_nat (length (arrayBars h)) →
  (0 < fuel)%nat → high - low < Z.of_nat fuel →
  ∃ h',
    quickSort fuel low high h = Ok (tt, h') ∧
    swaps low high (arrayBars h) (arrayBars h') ∧
    (∃ new, steps h' = steps h ++ new ∧ Forall (emitted (arrayBars h)) new) ∧
    (inRange (isNum ∘ value) (arrayBars h) low high →
     sortedRange (arrayBars h') low high).
Proof.
  induction fuel as [|fuel IH]; intros low high h Hlow Hhigh Hpos Hfuel; [lia|].
  rewrite quickSort_S. destruct (Z.ltb_spec low high) as [Hlt|Hge]; cycle 1.
  { exists h. split_and!; [done|apply swaps_refl| |].
    - exists []. by rewrite app_nil_r.
    - intros Hnum k1 k2 b1 b2 ??? H1 H2.
      assert (k1 = k2) as -> by lia. rewrite H1 in H2. simplify_eq.
      apply js_leb_refl. apply (Hnum k2 b2); [lia|done]. }
  set (arr := arrayBars h) in *.
  destruct (lookupZ_is_Some arr high) as [bh Hbh]; [lia|]. rewrite Hbh.
  set (pivot := value bh). set (s0 := partitionStep _ _ _). cbv zeta.
  assert (emitted arr s0) as Hs0.
  { eapply emitted_partition; eauto using reach_refl. }
  destruct (compareLoop_spec (Z.to_nat (high - low)) low high pivot low (low - 1)
              (mkHeap arr (steps h ++ [s0]) (partitionCount h + 1)))
    as (i & h1 & -> & Hbound & Hsw1 & _ & (new1 & Hnew1 & Hem1) & Hlom);
    simpl; [lia..|].
  simpl in *. replace (low - 1 + 1) with low in * by lia.
  set (arr1 := arrayBars h1) in *.
  assert (length arr1 = length arr) as Hlen1 by by eapply swaps_length.
  assert (lookupZ arr1 high = Some bh) as ->.
  { by rewrite (swaps_frame _ _ _ _ _ Hsw1) by lia. }
  destruct (lookupZ_is_Some arr1 (i + 1)) as [bi Hbi]; [lia|]. rewrite Hbi.
  assert (lookupZ arr1 high = Some bh) as Hbh1.
  { by rewrite (swaps_frame _ _ _ _ _ Hsw1) by lia. }
  set (arr2 := swapBars arr1 (i + 1) high bi bh).
  set (s2 := pivotStep _ _ _ _).
  assert (length arr2 = length arr) as Hlen2.
  { unfold arr2. by rewrite swapBars_length. }
  assert (swaps low high arr1 arr2) as Hsw2.
  { apply swaps_one; auto; lia. }
  assert (swaps low high arr arr2) as Hsw02.
  { eapply swaps_trans; [|done]. eapply swaps_mono; [| |done]; lia. }
  assert (lookupZ arr2 (i + 1) = Some bh) as Hp2.
  { unfold arr2. rewrite (swapBars_lookup _ _ _ _ _ _ Hbi Hbh1).
    destruct (decide (i + 1 = high)) as [Heq|]; [|by rewrite decide_True].
    rewrite Heq in Hbi. congruence. }
  assert (emitted arr s2) as Hs2.
  { eapply (emitted_pivot _ arr2 low high i bh); eauto using swaps_reach; lia. }
  destruct (IH low i (mkHeap arr2 (steps h1 ++ [s2]) (partitionCount h1)))
    as (h3 & -> & Hsw3 & (new3 & Hnew3 & Hem3) & Hsort3); simpl; [lia..|].
  simpl in *. set (arr3 := arrayBars h3) in *.
  assert (length arr3 = length arr) as Hlen3.
  { rewrite <-Hlen2. by eapply swaps_length. }
  destruct (IH (i + 2) high h3)
    as (h4 & -> & Hsw4 & (new4 & Hnew4 & Hem4) & Hsort4); [fold arr3; lia..|].
  fold arr3 in Hsw4, Hem4, Hsort4. set (arr4 := arrayBars h4) in *.
  assert (swaps low high arr arr3) as Hsw03.
  { eapply swaps_trans; [done|]. eapply swaps_mono; [| |done]; lia. }
  assert (swaps low high arr arr4) as Hsw04.
  { eapply swaps_trans; [done|]. eapply swaps_mono; [| |done]; lia. }
  exists h4. split_and!; [done|done| |].
  - exists ([s0] ++ new1 ++ [s2] ++ new3 ++ new4). split.
    + rewrite Hnew4, Hnew3, Hnew1. by rewrite <-!app_assoc.
    + repeat (apply Forall_app; split).
      * by apply Forall_singleton.
      * done.
      * by apply Forall_singleton.
      * eapply Forall_emitted_reach; [|done]. by eapply swaps_reach.
      * eapply Forall_emitted_reach; [|done]. by eapply swaps_reach.
  - intros Hnum. fold arr4.
    assert (inRange (isNum ∘ value) arr4 low high) as Hnum4
      by by eapply swaps_inRange.
    assert (isNum pivot) as Hpiv by (apply (Hnum high bh); [lia|done]).
    (* the two sides of the pivot after the loop and the last exchange *)
    destruct Hlom as [Hl1 Hg1]; [intros k b ?; lia|].
    assert (inRange (lePivot pivot) arr2 low i) as Hl2.
    { intros k b Hk. unfold arr2. rewrite (swapBars_lookup _ _ _ _ _ _ Hbi Hbh1).
      rewrite !decide_False by lia. by apply Hl1. }
    assert (inRange (gtPivot pivot) arr2 (i + 2) high) as Hg2.
    { intros k b Hk. unfold arr2. rewrite (swapBars_lookup _ _ _ _ _ _ Hbi Hbh1).
      destruct (decide (k = high)) as [->|].
      - intros [= <-]. apply (Hg1 (i + 1)); [lia|done].
      - rewrite decide_False by lia. apply Hg1. lia. }
    (* the left call *)
    assert (inRange (lePivot pivot) arr3 low i) as Hl3 by by eapply swaps_inRange.
    assert (inRange (gtPivot pivot) arr3 (i + 2) high) as Hg3.
    { intros k b Hk. rewrite (swaps_frame _ _ _ _ _ Hsw3) by lia. by apply Hg2. }
    assert (sortedRange arr3 low i) as Hs3.
    { apply Hsort3. intros k b Hk Hb.
      apply (swaps_inRange _ _ _ _ _ Hsw02 Hnum k b); [lia|done]. }
    (* the right call *)
    assert (inRange (gtPivot pivot) arr4 (i + 2) high) as Hg4 by by eapply swaps_inRange.
    assert (sortedRange arr4 (i + 2) high) as Hs4.
    { apply Hsort4. intros k b Hk Hb.
      apply (swaps_inRange _ _ _ _ _ Hsw03 Hnum k b); [lia|done]. }
    assert (∀ k, k < i + 2 → lookupZ arr4 k = lookupZ arr3 k) as Hfr4.
    { intros k Hk. apply (swaps_frame _ _ _ _ _ Hsw4). lia. }
    assert (lookupZ arr4 (i + 1) = Some bh) as Hp4.
    { rewrite Hfr4 by lia. by rewrite (swaps_frame _ _ _ _ _ Hsw3) by lia. }
    intros k1 k2 b1 b2 Hk1 Hk12 Hk2 H1 H2.
    assert (isNum (value b2)) as Hn2 by (apply (Hnum4 k2 b2); [lia|done]).
    destruct (Z.lt_trichotomy k1 (i + 1)) as [?|[Heq1|?]].
    + rewrite Hfr4 in H1 by lia.
      assert (lePivot pivot b1) as Hb1 by (apply (Hl3 k1); [lia|done]).
      destruct (Z.lt_trichotomy k2 (i + 1)) as [?|[Heq2|?]].
      * rewrite Hfr4 in H2 by lia. apply (Hs3 k1 k2); auto; lia.
      * rewrite Heq2, Hp4 in H2. by injection H2 as <-.
      * eapply js_leb_le_gt; [done| |done]. apply (Hg4 k2); [lia|done].
    + rewrite Heq1, Hp4 in H1. injection H1 as <-.
      destruct (decide (k2 = i + 1)) as [Heq2|].
      * rewrite Heq2, Hp4 in H2. injection H2 as <-. by apply js_leb_refl.
      * apply js_leb_gt; [|done|done]. apply (Hg4 k2); [lia|done].
    + apply (Hs4 k1 k2); auto; lia.
Qed.

(** ** Runs that complete *)

(** The boundary after any completed run of the loop. *)
Lemma compareLoop_bound n : ∀ low high pivot j i h i' h',
  compareLoop n low high pivot j i h = Ok (i', h') →
  i ≤ i' ≤ i + Z.of_nat n.
Proof.
  induction n as [|n IH]; intros low high pivot j i h i' h'.
  { intros [= <- <-]. lia. }
  rewrite compareLoop_S.
  destruct (lookupZ (arrayBars h) j) as [bj|]; [|done]. cbv zeta.
  destruct (js_leb (value bj) pivot).
  - destruct (lookupZ (arrayBars h) (i + 1)) as [bi|]; [|done].
    intros Hrun%IH. lia.
  - intros Hrun%IH. lia.
Qed.

(** The first [m] iterations form a loop of their own: [m + k] turns are
    [m] turns followed by [k] turns from the state reached. *)
Lemma compareLoop_split m k : ∀ low high pivot j i h,
  compareLoop (m + k) low high pivot j i h =
  match compareLoop m low high pivot j i h with
  | Ok (im, hm) => compareLoop k low high pivot (j + Z.of_nat m) im hm
  | TypeError => TypeError
  | OutOfFuel => OutOfFuel
  end.
Proof.
  induction m as [|m IH]; intros low high pivot j i h.
  { change (compareLoop 0 low high pivot j i h) with (Ok (i, h)).
    simpl. by replace (j + Z.of_nat 0) with j by lia. }
  change (S m + k)%nat with (S (m + k)). rewrite !compareLoop_S.
  destruct (lookupZ (arrayBars h) j) as [bj|]; [|done]. cbv zeta.
  replace (j + Z.of_nat (S m)) with (j + 1 + Z.of_nat m) by lia.
  destruct (js_leb (value bj) pivot).
  - destruct (lookupZ (arrayBars h) (i + 1)) as [bi|]; [|done]. apply IH.
  - apply IH.
Qed.

(** A larger budget does not change the result of a completed call. *)
Lemma quickSort_fuel_mono fuel : ∀ fuel' low high h r,
  quickSort fuel low high h = Ok r → (fuel ≤ fuel')%nat →
  quickSort fuel' low high h = Ok r.
Proof.
  induction fuel as [|fuel IH]; intros fuel' low high h r; [done|].
  destruct fuel' as [|fuel']; [lia|]. intros Hrun Hle.
  rewrite quickSort_S in *.
  destruct (low <? high); [|done].
  destruct (lookupZ (arrayBars h) high) as [bh|]; [|done]. cbv zeta in *.
  destruct (compareLoop _ _ _ _ _ _ _) as [[i h1]| |]; [|done..].
  destruct (lookupZ (arrayBars h1) high) as [bh'|]; [|done].
  destruct (lookupZ (arrayBars h1) (i + 1)) as [bi|]; [|done].
  destruct (quickSort fuel low i _) as [[[] h3]| |] eqn:H3; [|done..].
  rewrite (IH fuel' _ _ _ _ H3) by lia.
  apply IH; [done|lia].
Qed.

(** ** The whole run *)

Lemma initialBars_value input : value <$> initialBars input = input.
Proof.
  unfold initialBars. rewrite <-list_fmap_compose. apply list_fmap_id.
Qed.

Lemma initialBars_allTagged input : allTagged SDefault (initialBars input).
Proof. unfold allTagged, initialBars. by apply Forall_fmap, Forall_true. Qed.

(** Every run completes, and its trace is the initial snapshot, then
    snapshots of arrays reached from the initial one, then the terminal
    snapshot of the array as [quickSort] left it. *)
Lemma generateSteps_spec input :
  let bars := initialBars input in
  ∃ arr count mid,
    generateSteps input = Ok ([initialStep bars] ++ mid ++ [finalStep arr count]) ∧
    reach bars arr ∧
    Forall (emitted bars) mid ∧
    (Forall isNum input → sortedRange arr 0 (Z.of_nat (length input) - 1)).
Proof.
  intros bars. unfold generateSteps, generateStepsFuel. fold bars.
  assert (length bars = length input) as Hlen by apply length_fmap.
  destruct (quickSort_spec (S (length input)) 0 (Z.of_nat (length bars) - 1)
              (mkHeap bars [initialStep bars] 0))
    as (h & -> & Hsw & (mid & Hmid & Hem) & Hsort); simpl; [lia..|].
  simpl in *. exists (arrayBars h), (partitionCount h), mid. split_and!.
  - by rewrite Hmid.
  - by eapply swaps_reach.
  - done.
  - intros Hnum. rewrite <-Hlen. apply Hsort.
    intros k b _ Hb. apply lookupZ_Some in Hb as [_ Hb].
    unfold bars, initialBars in Hb. apply list_lookup_fmap_Some in Hb as (v & -> & Hv).
    simpl. eapply Forall_lookup_1 in Hnum; eauto.
Qed.

(** ** What a snapshot holds *)

Lemma tagPartition_values low high arr :
  value <$> imap (tagPartition low high) arr = value <$> arr.
Proof. rewrite fmap_imap, <-imap_const. by apply imap_ext. Qed.

Lemma tagCompare_values low high j arr :
  value <$> imap (tagCompare low high j) arr = value <$> arr.
Proof. rewrite fmap_imap, <-imap_const. by apply imap_ext. Qed.

Lemma finalStep_values arr count : value <$> array (finalStep arr count) = value <$> arr.
Proof. simpl. rewrite <-list_fmap_compose. by apply list_fmap_ext. Qed.

Lemma finalStep_allTagged arr count : allTagged SSorted (array (finalStep arr count)).
Proof. unfold allTagged. simpl. by apply Forall_fmap, Forall_true. Qed.

(** The array from which an emitted snapshot was taken. *)
Lemma emitted_source arr0 s :
  emitted arr0 s →
  ∃ arr, reach arr0 arr ∧ value <$> array s = value <$> arr ∧
         length (array s) = length arr.
Proof.
  destruct 1 as [arr| arr | arr | arr]; exists arr; simpl;
    rewrite ?tagPartition_values, ?tagCompare_values, ?length_imap; done.
Qed.

Lemma emitted_values arr0 s :
  emitted arr0 s →
  length (array s) = length arr0 ∧ value <$> array s ≡ₚ value <$> arr0.
Proof.
  intros (arr & Hr & -> & ->)%emitted_source. split.
  - by apply reach_length.
  - by rewrite (reach_Permutation _ _ Hr).
Qed.

(** From indices to the order of the list. *)
Lemma sortedRange_StronglySorted arr :
  sortedRange arr 0 (Z.of_nat (length arr) - 1) →
  StronglySorted js_le (value <$> arr).
Proof.
  induction arr as [|b arr IH]; intros Hs; simpl; constructor.
  - apply IH. intros k1 k2 b1 b2 ??? H1 H2.
    apply (Hs (k1 + 1) (k2 + 1)); simpl length; try lia.
    + apply lookupZ_Some in H1 as [??]. apply lookupZ_Some. split; [lia|].
      by replace (Z.to_nat (k1 + 1)) with (S (Z.to_nat k1)) by lia.
    + apply lookupZ_Some in H2 as [??]. apply lookupZ_Some. split; [lia|].
      by replace (Z.to_nat (k2 + 1)) with (S (Z.to_nat k2)) by lia.
  - apply Forall_fmap, Forall_lookup. intros n b' Hb'.
    apply (Hs 0 (Z.of_nat (S n))); simpl length; try lia.
    + apply lookup_lt_Some in Hb'. lia.
    + done.
    + by rewrite lookupZ_of_nat.
Qed.

(** ** The scenarios of the application *)

(** The array the application starts with (line 18): thirty snapshots,
    the last one in order. *)
Example INITIAL_ARRAY_trace :
  ∃ t s,
    generateSteps INITIAL_ARRAY = Ok t ∧ length t = 30%nat ∧ last t = Some s ∧
    value <$> array s = Num <$> [8; 9; 19; 28; 37; 38; 39; 39].
Proof. vm_compute. eexists _, _. split_and!; reflexivity. Qed.

(** Three equal values: every comparison is a tie, and every tie is an
    exchange. *)
Example equal_values_trace :
  ∃ t,
    generateSteps [Num 5; Num 5; Num 5] = Ok t ∧
    activeLineNumber <$> t = [1; 2; 3; 4; 3; 4; 5; 2; 3; 4; 5; 6].
Proof. vm_compute. eexists. split; reflexivity. Qed.

(** * The claims *)

(** C1.  For every sequence of numbers given as input, the last snapshot
    of the trace returned by [generateSteps] holds the values in
    non-decreasing order (each value is [<=] every later one) and tags
    every element ['sorted'].  The input ranges over the numbers proper;
    [NaN], which is ordered with nothing, is left out. *)
Theorem final_snapshot_sorted (zs : list Z) :
  ∃ t s,
    generateSteps (Num <$> zs) = Ok t ∧
    last t = Some s ∧
    StronglySorted js_le (value <$> array s) ∧
    allTagged SSorted (array s).
Proof.
  destruct (generateSteps_spec (Num <$> zs)) as (arr & count & mid & -> & Hr & _ & Hs).
  eexists _, (finalStep arr count). split_and!.
  - done.
  - by rewrite !app_assoc, last_snoc.
  - rewrite finalStep_values. apply sortedRange_StronglySorted.
    rewrite (reach_length _ _ Hr). unfold initialBars. rewrite length_fmap.
    apply Hs. apply Forall_fmap, Forall_true. intros z. by exists z.
  - apply finalStep_allTagged.
Qed.

(** C2.  For every input, every snapshot of the trace has as many
    elements as the input, and their values are a permutation of the
    input values. *)
Theorem snapshots_permute_input (input : list number) :
  ∃ t,
    generateSteps input = Ok t ∧
    Forall (λ s, length (array s) = length input ∧ value <$> array s ≡ₚ input) t.
Proof.
  destruct (generateSteps_spec input) as (arr & count & mid & -> & Hr & Hem & _).
  set (bars := initialBars input) in *.
  assert (length bars = length input) as Hlen by apply length_fmap.
  assert (value <$> bars = input) as Hval by apply initialBars_value.
  eexists. split; [done|].
  repeat (apply Forall_app; split).
  - apply Forall_singleton. simpl. by rewrite Hval.
  - eapply Forall_impl; [done|]. intros s [Hl Hp]%emitted_values.
    by rewrite Hl, Hp, Hlen, Hval.
  - apply Forall_singleton. rewrite finalStep_values. simpl. rewrite length_fmap.
    by rewrite (reach_length _ _ Hr), (reach_Permutation _ _ Hr), Hlen, Hval.
Qed.

(** C6.  For every input, the first snapshot of the trace holds the input
    values in their original order, tags every element ['default'], has
    [pivotIndex = -1] (no pivot) and an empty [comparing]. *)
Theorem first_snapshot_initial (input : list number) :
  ∃ s rest,
    generateSteps input = Ok (s :: rest) ∧
    value <$> array s = input ∧
    allTagged SDefault (array s) ∧
    pivotIndex s = -1 ∧
    comparing s = [].
Proof.
  destruct (generateSteps_spec input) as (arr & count & mid & -> & _).
  eexists _, _. split_and!; [done| | |done..].
  - apply initialBars_value.
  - apply initialBars_allTagged.
Qed.

(** C4, as the code has it.  [generateSteps] validates nothing and raises
    no error: for every input, elements that are not numbers included,
    it returns a complete trace, from the initial snapshot (line 1) to
    the terminal one (line 6). *)
Theorem generateSteps_never_raises (input : list number) :
  ∃ first mid final,
    generateSteps input = Ok (first :: mid ++ [final]) ∧
    activeLineNumber first = 1 ∧
    activeLineNumber final = 6.
Proof.
  destruct (generateSteps_spec input) as (arr & count & mid & -> & _).
  by eexists _, _, _.
Qed.

(** C4 fails as stated: an input with a [NaN] element is not rejected.
    The run emits nine snapshots, and the terminal one is [1, 2, NaN]. *)
Lemma nan_input_not_rejected :
  ∃ t s,
    generateSteps [Num 2; NaN; Num 1] = Ok t ∧
    length t = 9%nat ∧
    last t = Some s ∧
    value <$> array s = [Num 1; Num 2; NaN].
Proof. vm_compute. eexists _, _. split_and!; reflexivity. Qed.

(** C5.  The empty input and every input of one element raise no error and
    give a trace of exactly two snapshots, the initial and the terminal
    one; and a call of [quickSort] on a range with [high <= low] returns
    at once, leaving array, trace and counter as they were. *)
Theorem trivial_input_two_snapshots (input : list number) fuel low high h :
  (length input ≤ 1)%nat → high ≤ low →
  generateSteps input =
    Ok [initialStep (initialBars input); finalStep (initialBars input) 0] ∧
  quickSort (S fuel) low high h = Ok (tt, h).
Proof.
  intros Hlen Hge. split.
  - destruct input as [|v [|??]]; [done|done|simpl in Hlen; lia].
  - rewrite quickSort_S. by destruct (Z.ltb_spec low high); [lia|].
Qed.

Lemma trivial_input_two_snapshots_witness :
  generateSteps [Num 7] =
    Ok [initialStep (initialBars [Num 7]); finalStep (initialBars [Num 7]) 0] ∧
  quickSort 1 3 3 (mkHeap (initialBars [Num 7]) [] 0)
    = Ok (tt, mkHeap (initialBars [Num 7]) [] 0).
Proof.
  apply (trivial_input_two_snapshots [Num 7] 0 3 3); simpl; lia.
Defined.

(** ** Independence of the recursion budget *)

Lemma generateStepsFuel_mono fuel fuel' input t :
  generateStepsFuel fuel input = Ok t → (fuel ≤ fuel')%nat →
  generateStepsFuel fuel' input = Ok t.
Proof.
  unfold generateStepsFuel. intros Hrun Hle.
  destruct (quickSort fuel _ _ _) as [[[] h]| |] eqn:Hq; [|done..].
  by rewrite (quickSort_fuel_mono _ _ _ _ _ _ Hq Hle).
Qed.

(** ** Tags of the derived snapshots *)

Lemma lookupZ_imap {A B} (f : nat → A → B) (l : list A) k :
  lookupZ (imap f l) k = f (Z.to_nat k) <$> lookupZ l k.
Proof. unfold lookupZ. destruct (k <? 0); [done|]. apply list_lookup_imap. Qed.

Lemma partitionStep_pivot arr low high bh :
  lookupZ arr high = Some bh →
  lookupZ (array (partitionStep arr low high)) high = Some (mkBar (value bh) SPivot).
Proof.
  intros Hh. apply lookupZ_bounds in Hh as ?. simpl.
  rewrite lookupZ_imap, Hh. simpl. unfold tagPartition.
  by rewrite bool_decide_eq_true_2 by lia.
Qed.

Lemma compareStep_pivot arr low high j vj pivot bh :
  lookupZ arr high = Some bh →
  lookupZ (array (compareStep arr low high j vj pivot)) high
    = Some (mkBar (value bh) SPivot).
Proof.
  intros Hh. apply lookupZ_bounds in Hh as ?. simpl.
  rewrite lookupZ_imap, Hh. simpl. unfold tagCompare.
  by rewrite bool_decide_eq_true_2 by lia.
Qed.

Lemma compareStep_comparing arr low high j vj pivot bj :
  lookupZ arr j = Some bj → j ≠ high →
  lookupZ (array (compareStep arr low high j vj pivot)) j
    = Some (mkBar (value bj) SComparing).
Proof.
  intros Hj Hne. apply lookupZ_bounds in Hj as ?. simpl.
  rewrite lookupZ_imap, Hj. simpl. unfold tagCompare.
  rewrite bool_decide_eq_false_2 by lia.
  by rewrite bool_decide_eq_true_2 by lia.
Qed.

(** ** The trace only grows *)

Lemma compareLoop_steps_prefix n : ∀ low high pivot j i h i' h',
  compareLoop n low high pivot j i h = Ok (i', h') →
  ∃ new, steps h' = steps h ++ new.
Proof.
  induction n as [|n IH]; intros low high pivot j i h i' h'.
  { intros [= <- <-]. exists []. by rewrite app_nil_r. }
  rewrite compareLoop_S.
  destruct (lookupZ (arrayBars h) j) as [bj|]; [|done]. cbv zeta.
  destruct (js_leb (value bj) pivot).
  - destruct (lookupZ (arrayBars h) (i + 1)) as [bi|]; [|done].
    intros [new Hnew]%IH. simpl in Hnew. rewrite Hnew, <-!app_assoc. by eexists.
  - intros [new Hnew]%IH. simpl in Hnew. rewrite Hnew, <-!app_assoc. by eexists.
Qed.

Lemma quickSort_steps_prefix fuel : ∀ low high h h',
  quickSort fuel low high h = Ok (tt, h') →
  ∃ new, steps h' = steps h ++ new.
Proof.
  induction fuel as [|fuel IH]; intros low high h h'; [done|].
  rewrite quickSort_S. destruct (low <? high); cycle 1.
  { intros [= <-]. exists []. by rewrite app_nil_r. }
  destruct (lookupZ (arrayBars h) high) as [bh|]; [|done]. cbv zeta.
  destruct (compareLoop _ _ _ _ _ _ _) as [[i h1]| |] eqn:Hloop; [|done..].
  apply compareLoop_steps_prefix in Hloop as [new1 Hnew1]. simpl in Hnew1.
  destruct (lookupZ (arrayBars h1) high) as [bh'|]; [|done].
  destruct (lookupZ (arrayBars h1) (i + 1)) as [bi|]; [|done].
  destruct (quickSort fuel low i _) as [[[] h3]| |] eqn:H3; [|done..].
  apply IH in H3 as [new3 Hnew3]. simpl in Hnew3.
  intros [new4 Hnew4]%IH.
  rewrite Hnew4, Hnew3, Hnew1, <-!app_assoc. by eexists.
Qed.

(** C8.  In a call of [quickSort] on a range [low < high], the loop is
    entered with the boundary [i] at [low - 1] (it is the value after no
    iteration); if [i1] and [i2] are its values after [m1 <= m2]
    iterations and [i] its value when the loop ends, then
    [low - 1 <= i1 <= i2 <= i <= high - 1], and [i2] exceeds [i1] by at
    most the number of iterations in between (an iteration adds one to
    the boundary or leaves it); and the exchange that follows
    puts the pivot in the cell [i + 1], which the line-5 snapshot shows. *)
Theorem boundary_monotone fuel low high h h' (m1 m2 : nat) :
  low < high → (m1 ≤ m2)%nat → (m2 ≤ Z.to_nat (high - low))%nat →
  quickSort (S fuel) low high h = Ok (tt, h') →
  ∃ bh i1 i2 i h1 h2 hn s b,
    lookupZ (arrayBars h) high = Some bh ∧
    let h0 := mkHeap (arrayBars h)
                (steps h ++ [partitionStep (arrayBars h) low high])
                (partitionCount h + 1) in
    compareLoop 0 low high (value bh) low (low - 1) h0 = Ok (low - 1, h0) ∧
    compareLoop m1 low high (value bh) low (low - 1) h0 = Ok (i1, h1) ∧
    compareLoop m2 low high (value bh) low (low - 1) h0 = Ok (i2, h2) ∧
    compareLoop (Z.to_nat (high - low)) low high (value bh) low (low - 1) h0
      = Ok (i, hn) ∧
    low - 1 ≤ i1 ∧ i1 ≤ i2 ∧ i2 - i1 ≤ Z.of_nat (m2 - m1) ∧
    i2 ≤ i ∧ i ≤ high - 1 ∧
    s ∈ steps h' ∧ activeLineNumber s = 5 ∧ pivotIndex s = i + 1 ∧
    lookupZ (array s) (i + 1) = Some b ∧ value b = value bh.
Proof.
  intros Hlt Hm12 Hm2 Hrun. rewrite quickSort_S in Hrun.
  destruct (Z.ltb_spec low high); [|lia].
  destruct (lookupZ (arrayBars h) high) as [bh|] eqn:Hbh; [|done]. cbv zeta in Hrun.
  set (h0 := mkHeap _ _ _) in *. set (n := Z.to_nat (high - low)) in *.
  destruct (compareLoop n _ _ _ _ _ _) as [[i hn]| |] eqn:Hn; [|done..].
  (* the loop read the cell [low], so that [low] is an index of the array *)
  assert (0 ≤ low) as Hlow.
  { destruct n as [|n'] eqn:En; [lia|]. rewrite compareLoop_S in Hn.
    destruct (lookupZ (arrayBars h0) low) as [bl|] eqn:Hl; [|done].
    apply lookupZ_bounds in Hl. lia. }
  apply lookupZ_bounds in Hbh as Hhigh.
  destruct (compareLoop_spec n low high (value bh) low (low - 1) h0)
    as (i' & hn' & Hn' & _ & Hsw & _); [simpl; lia..|].
  rewrite Hn in Hn'. injection Hn' as <- <-.
  simpl in Hsw. replace (low - 1 + 1) with low in Hsw by lia.
  (* the iterations, in three runs *)
  pose proof Hn as Hsplit.
  replace n with (m2 + (n - m2))%nat in Hsplit by lia.
  rewrite compareLoop_split in Hsplit.
  destruct (compareLoop m2 _ _ _ _ _ _) as [[i2 h2]| |] eqn:H2; [|done..].
  pose proof H2 as Hsplit2.
  replace m2 with (m1 + (m2 - m1))%nat in Hsplit2 by lia.
  rewrite compareLoop_split in Hsplit2.
  destruct (compareLoop m1 _ _ _ _ _ _) as [[i1 h1]| |] eqn:H1; [|done..].
  apply compareLoop_bound in Hsplit, Hsplit2. apply compareLoop_bound in H1 as Hb1.
  (* the last exchange and what follows *)
  assert (lookupZ (arrayBars hn) high = Some bh) as Hbh'.
  { rewrite (swaps_frame _ _ _ _ _ Hsw) by lia. done. }
  rewrite Hbh' in Hrun.
  destruct (lookupZ (arrayBars hn) (i + 1)) as [bi|] eqn:Hbi; [|done].
  set (arr' := swapBars _ _ _ _ _) in Hrun. set (s := pivotStep _ _ _ _) in Hrun.
  destruct (quickSort fuel low i _) as [[[] h3]| |] eqn:H3; [|done..].
  apply quickSort_steps_prefix in H3 as [new3 Hnew3].
  apply quickSort_steps_prefix in Hrun as [new4 Hnew4]. simpl in Hnew3.
  exists bh, i1, i2, i, h1, h2, hn, s, bh. split; [done|]. cbv zeta.
  split_and!; try done; try (unfold n in *; lia).
  - rewrite Hnew4, Hnew3, !elem_of_app, list_elem_of_singleton. auto.
  - simpl. unfold arr'. rewrite (swapBars_lookup _ _ _ _ _ _ Hbi Hbh').
    destruct (decide (i + 1 = high)) as [Heq|]; [|by rewrite decide_True].
    rewrite Heq in Hbi. congruence.
Qed.

Lemma boundary_monotone_witness :
  let h := mkHeap (initialBars [Num 3; Num 1; Num 2]) [] 0 in
  ∃ bh i1 i2 i h1 h2 hn s b,
    lookupZ (arrayBars h) 2 = Some bh ∧
    let h0 := mkHeap (arrayBars h)
                (steps h ++ [partitionStep (arrayBars h) 0 2])
                (partitionCount h + 1) in
    compareLoop 0 0 2 (value bh) 0 (0 - 1) h0 = Ok (0 - 1, h0) ∧
    compareLoop 1 0 2 (value bh) 0 (0 - 1) h0 = Ok (i1, h1) ∧
    compareLoop 2 0 2 (value bh) 0 (0 - 1) h0 = Ok (i2, h2) ∧
    compareLoop (Z.to_nat (2 - 0)) 0 2 (value bh) 0 (0 - 1) h0 = Ok (i, hn) ∧
    0 - 1 ≤ i1 ∧ i1 ≤ i2 ∧ i2 - i1 ≤ Z.of_nat (2 - 1) ∧
    i2 ≤ i ∧ i ≤ 2 - 1 ∧
    s ∈ steps (heapOf (quickSort 4 0 2 h)) ∧
    activeLineNumber s = 5 ∧ pivotIndex s = i + 1 ∧
    lookupZ (array s) (i + 1) = Some b ∧ value b = value bh.
Proof.
  intros h.
  apply (boundary_monotone 3 0 2 h (heapOf (quickSort 4 0 2 h)) 1 2);
    first [lia | vm_compute; reflexivity].
Defined.

(** ** Tags of the copied snapshots *)

Lemma emitted_copy arr0 s :
  emitted arr0 s →
  activeLineNumber s = 4 ∨ activeLineNumber s = 5 →
  reach arr0 (array s) ∧ ∃ b, lookupZ (array s) (pivotIndex s) = Some b.
Proof.
  destruct 1; simpl; intros [?|?]; try done.
  - split; [done|]. apply lookupZ_is_Some. lia.
  - split; [done|]. by eexists.
Qed.

Lemma allTagged_lookupZ t arr k b :
  allTagged t arr → lookupZ arr k = Some b → state b = t.
Proof.
  intros Ht [_ Hb]%lookupZ_Some. by eapply (Forall_lookup_1 _ _ _ _ Ht).
Qed.

(** C10.  Every snapshot of the trace is taken of a state [arr] of the
    working array, reached from the initial array by exchanges alone, and
    in every such state all the elements are tagged ['default']: the tags
    computed for a snapshot are never written back.  The swap (line 4)
    and pivot-placed (line 5) snapshots are that array itself, so that
    all their elements are tagged ['default'], the one at [pivotIndex]
    included: the pivot just placed carries no ['pivot'] highlight. *)
Theorem working_array_stays_default (input : list number) :
  ∃ t,
    generateSteps input = Ok t ∧
    Forall (λ s,
      ∃ arr,
        reach (initialBars input) arr ∧
        allTagged SDefault arr ∧
        value <$> array s = value <$> arr ∧
        (activeLineNumber s = 4 ∨ activeLineNumber s = 5 →
         array s = arr ∧
         allTagged SDefault (array s) ∧
         ∃ b, lookupZ (array s) (pivotIndex s) = Some b ∧ state b = SDefault)) t.
Proof.
  destruct (generateSteps_spec input) as (arr & count & mid & -> & Hr & Hem & _).
  set (bars := initialBars input) in *.
  assert (allTagged SDefault bars) as Hbars by apply initialBars_allTagged.
  eexists. split; [done|].
  repeat (apply Forall_app; split).
  - apply Forall_singleton. exists bars. simpl.
    split_and!; [apply reach_refl|done|done|]. by intros [?|?].
  - eapply Forall_impl; [done|]. intros s Hs.
    destruct (decide (activeLineNumber s = 4 ∨ activeLineNumber s = 5)) as [Hline|Hline].
    + destruct (emitted_copy _ _ Hs Hline) as (Hr2 & b & Hb).
      assert (allTagged SDefault (array s)) as Htag by by eapply reach_allTagged.
      exists (array s). split_and!; [done..|]. intros _. split_and!; [done..|].
      exists b. split; [done|]. by eapply allTagged_lookupZ.
    + destruct (emitted_source _ _ Hs) as (arr1 & Hr1 & Hv1 & _).
      exists arr1. by split_and!; [|eapply reach_allTagged|..].
  - apply Forall_singleton. exists arr.
    split_and!; [done|by eapply reach_allTagged|apply finalStep_values|].
    by intros [?|?].
Qed.

(** * Beyond the claims: the shape of the trace *)

(** ** The function and the relation *)

Lemma compareLoop_loopRun n : ∀ low high pivot j i h i' h',
  compareLoop n low high pivot j i h = Ok (i', h') →
  j + Z.of_nat n = high →
  ∃ new,
    steps h' = steps h ++ new ∧
    partitionCount h' = partitionCount h ∧
    loopRun low high pivot j i (arrayBars h) new i' (arrayBars h').
Proof.
  induction n as [|n IH]; intros low high pivot j i h i' h' Hrun Hn.
  { injection Hrun as <- <-. exists []. rewrite app_nil_r.
    split_and!; [done..|]. apply loopRun_done. lia. }
  rewrite compareLoop_S in Hrun.
  destruct (lookupZ (arrayBars h) j) as [bj|] eqn:Hj; [|done]. cbv zeta in Hrun.
  destruct (js_leb (value bj) pivot) eqn:Hle.
  - destruct (lookupZ (arrayBars h) (i + 1)) as [bi|] eqn:Hi; [|done].
    apply IH in Hrun as (new & Hnew & Hc & Hloop); [|lia]. simpl in *.
    eexists (_ :: _ :: new). split_and!.
    + rewrite Hnew, <-!app_assoc. done.
    + done.
    + apply loopRun_swap; auto. lia.
  - apply IH in Hrun as (new & Hnew & Hc & Hloop); [|lia]. simpl in *.
    eexists (_ :: new). split_and!.
    + rewrite Hnew, <-!app_assoc. done.
    + done.
    + apply loopRun_keep; auto. lia.
Qed.

Lemma quickSort_qsRun fuel : ∀ low high h h',
  quickSort fuel low high h = Ok (tt, h') →
  ∃ new,
    steps h' = steps h ++ new ∧
    qsRun low high (arrayBars h) (partitionCount h) new (arrayBars h') (partitionCount h').
Proof.
  induction fuel as [|fuel IH]; intros low high h h' Hrun; [done|].
  rewrite quickSort_S in Hrun. destruct (Z.ltb_spec low high) as [Hlt|Hge]; cycle 1.
  { injection Hrun as <-. exists []. rewrite app_nil_r. split; [done|].
    by apply qsRun_base. }
  destruct (lookupZ (arrayBars h) high) as [bh|] eqn:Hbh; [|done]. cbv zeta in Hrun.
  destruct (compareLoop _ _ _ _ _ _ _) as [[i h1]| |] eqn:Hloop; [|done..].
  apply compareLoop_loopRun in Hloop as (new1 & Hnew1 & Hc1 & Hloop); [|lia].
  simpl in *.
  destruct (lookupZ (arrayBars h1) high) as [bh'|] eqn:Hbh'; [|done].
  destruct (lookupZ (arrayBars h1) (i + 1)) as [bi|] eqn:Hbi; [|done].
  destruct (quickSort fuel low i _) as [[[] h3]| |] eqn:H3; [|done..].
  apply IH in H3 as (new3 & Hnew3 & Hq3). apply IH in Hrun as (new4 & Hnew4 & Hq4).
  simpl in *. rewrite Hc1 in *.
  eexists (_ :: new1 ++ _ :: new3 ++ new4). split.
  - rewrite Hnew4, Hnew3, Hnew1, <-!app_assoc. done.
  - eapply qsRun_part; eauto.
Qed.

(** Every run of [generateSteps] is the initial snapshot, a run of
    [quickSort] on the whole array, and the terminal snapshot. *)
Lemma generateSteps_qsRun input :
  let bars := initialBars input in
  ∃ new arr c,
    generateSteps input = Ok (initialStep bars :: new ++ [finalStep arr c]) ∧
    qsRun 0 (Z.of_nat (length input) - 1) bars 0 new arr c.
Proof.
  intros bars. unfold generateSteps, generateStepsFuel. fold bars.
  assert (length bars = length input) as Hlen by apply length_fmap.
  destruct (quickSort_spec (S (length input)) 0 (Z.of_nat (length bars) - 1)
              (mkHeap bars [initialStep bars] 0))
    as (h & Hrun & _); simpl; [lia..|].
  rewrite Hrun. apply quickSort_qsRun in Hrun as (new & Hnew & Hq). simpl in *.
  exists new, (arrayBars h), (partitionCount h). rewrite Hnew, <-Hlen. done.
Qed.

(** ** What a run pushes *)

Lemma shot_weaken lo hi lo' hi' arr0 arr1 s :
  swaps lo' hi' arr0 arr1 → lo' ≤ lo → hi ≤ hi' →
  shot lo hi arr1 s → shot lo' hi' arr0 s.
Proof.
  intros Hsw ?? Hs.
  assert (∀ arr, swaps lo hi arr1 arr → swaps lo' hi' arr0 arr) as Hw.
  { intros arr Harr. eapply swaps_trans; [done|]. by eapply swaps_mono. }
  destruct Hs.
  - eapply shot_partition; eauto; lia.
  - eapply shot_compare; eauto; lia.
  - eapply shot_swap; eauto; lia.
  - eapply shot_pivot; eauto; lia.
Qed.

Lemma Forall_shot_weaken lo hi lo' hi' arr0 arr1 l :
  swaps lo' hi' arr0 arr1 → lo' ≤ lo → hi ≤ hi' →
  Forall (shot lo hi arr1) l → Forall (shot lo' hi' arr0) l.
Proof. intros ??? Hl. eapply Forall_impl; [done|]. eauto using shot_weaken. Qed.

(** The loop: the boundary, the array, the number of snapshots. *)
Lemma loopRun_facts low high pivot j i arr new i' arr' :
  loopRun low high pivot j i arr new i' arr' →
  i < j → j ≤ high →
  i ≤ i' ∧ i' ≤ i + (high - j) ∧
  swaps (i + 1) (high - 1) arr arr' ∧
  Z.of_nat (length new) = (high - j) + (i' - i).
Proof.
  induction 1 as [j i arr ?|j i arr bj bi new i' arr' ? Hj Hle Hi _ IH
                 |j i arr bj new i' arr' ? Hj Hle _ IH]; intros Hij Hjh.
  - split_and!; [lia|lia|apply swaps_refl|simpl; lia].
  - destruct IH as (? & ? & Hsw & Hlen); [lia..|].
    split_and!; [lia|lia| |simpl length; lia].
    apply (swaps_trans _ _ _ (swapBars arr (i + 1) j bi bj));
      [apply swaps_one; auto; lia|].
    eapply swaps_mono; [| |done]; lia.
  - destruct IH as (? & ? & Hsw & Hlen); [lia..|].
    split_and!; [lia|lia|done|simpl length; lia].
Qed.

(** The loop pushes comparison and swap snapshots only. *)
Lemma loopRun_shots low high pivot j i arr new i' arr' bh :
  loopRun low high pivot j i arr new i' arr' →
  low - 1 ≤ i → i < j → j ≤ high →
  lookupZ arr high = Some bh → value bh = pivot →
  Forall (shot low high arr) new ∧
  Forall (λ s, activeLineNumber s = 3 ∨ activeLineNumber s = 4) new.
Proof.
  intros Hrun. revert bh.
  induction Hrun as [j i arr ?|j i arr bj bi new i' arr' ? Hj Hle Hi _ IH
                    |j i arr bj new i' arr' ? Hj Hle _ IH];
    intros bh Hlow Hij Hjh Hbh <-.
  - done.
  - set (arr1 := swapBars arr (i + 1) j bi bj) in *.
    assert (swaps low high arr arr1) as Hsw by (apply swaps_one; auto; lia).
    assert (lookupZ arr1 high = Some bh) as Hbh1.
    { unfold arr1. rewrite (swapBars_lookup _ _ _ _ _ _ Hi Hj).
      by rewrite !decide_False by lia. }
    assert (lookupZ arr1 (i + 1) = Some bj) as Hi1.
    { unfold arr1. rewrite (swapBars_lookup _ _ _ _ _ _ Hi Hj).
      destruct (decide (i + 1 = j)) as [Heq|]; [|by rewrite decide_True].
      rewrite Heq in Hi. congruence. }
    assert (lookupZ arr1 j = Some bi) as Hj1.
    { unfold arr1. rewrite (swapBars_lookup _ _ _ _ _ _ Hi Hj). by rewrite decide_True. }
    destruct (IH bh) as [IH1 IH2]; [lia..|done|done|].
    split; repeat apply Forall_cons_2; auto.
    + eapply shot_compare; eauto using swaps_refl; lia.
    + eapply (shot_swap _ _ _ arr1 low high (i + 1) j bj bi bh); eauto; lia.
    + eapply Forall_shot_weaken; [done| | |done]; lia.
  - destruct (IH bh) as [IH1 IH2]; [lia..|done|done|].
    split; repeat apply Forall_cons_2; auto.
    eapply shot_compare; eauto using swaps_refl; lia.
Qed.

(** The facts of one partition, gathered. *)
Lemma qsRun_part_facts low high arr bh new1 i arr1 bh' bi :
  low < high →
  lookupZ arr high = Some bh →
  loopRun low high (value bh) low (low - 1) arr new1 i arr1 →
  lookupZ arr1 high = Some bh' →
  lookupZ arr1 (i + 1) = Some bi →
  let arr2 := swapBars arr1 (i + 1) high bi bh' in
  bh' = bh ∧ low - 1 ≤ i ∧ i ≤ high - 1 ∧
  swaps low (high - 1) arr arr1 ∧ swaps low high arr arr2 ∧
  lookupZ arr2 (i + 1) = Some bh ∧
  Z.of_nat (length new1) = (high - low) + (i - (low - 1)) ∧
  Forall (shot low high arr) new1 ∧
  Forall (λ s, activeLineNumber s = 3 ∨ activeLineNumber s = 4) new1.
Proof.
  intros Hlt Hbh Hloop Hbh' Hbi arr2.
  destruct (loopRun_facts _ _ _ _ _ _ _ _ _ Hloop) as (? & ? & Hsw & Hlen); [lia..|].
  replace (low - 1 + 1) with low in Hsw by lia.
  destruct (loopRun_shots _ _ _ _ _ _ _ _ _ bh Hloop) as [Hshots Hlines];
    [lia..|done|done|].
  assert (bh' = bh) as ->.
  { rewrite (swaps_frame _ _ _ _ _ Hsw) in Hbh' by lia. congruence. }
  assert (swaps low high arr arr2) as Hsw2.
  { eapply swaps_trans; [eapply swaps_mono; [| |done]; lia|].
    apply swaps_one; auto; lia. }
  split_and!; try done; try lia.
  unfold arr2. rewrite (swapBars_lookup _ _ _ _ _ _ Hbi Hbh').
  destruct (decide (i + 1 = high)) as [Heq|]; [|by rewrite decide_True].
  rewrite Heq in Hbi. congruence.
Qed.

(** A call changes the array by exchanges inside its range, never lowers
    the counter, and pushes snapshots of its own range only. *)
Lemma qsRun_shots low high arr c new arr' c' :
  qsRun low high arr c new arr' c' →
  swaps low high arr arr' ∧ c ≤ c' ∧ Forall (shot low high arr) new.
Proof.
  induction 1 as [low high arr c ?
                 |low high arr c bh new1 i arr1 bh' bi new3 arr3 c3 new4 arr4 c4
                    Hlt Hbh Hloop Hbh' Hbi _ IH3 _ IH4].
  - split_and!; [apply swaps_refl|lia|done].
  - destruct (qsRun_part_facts _ _ _ _ _ _ _ _ _ Hlt Hbh Hloop Hbh' Hbi)
      as (-> & ? & ? & Hsw1 & Hsw2 & Hp & _ & Hshots & _).
    set (arr2 := swapBars arr1 (i + 1) high bi bh) in *.
    destruct IH3 as (Hsw3 & ? & Hs3). destruct IH4 as (Hsw4 & ? & Hs4).
    assert (swaps low high arr arr3) as Hsw03.
    { eapply swaps_trans; [done|]. eapply swaps_mono; [| |done]; lia. }
    split_and!; [|lia|].
    + eapply swaps_trans; [done|]. eapply swaps_mono; [| |done]; lia.
    + apply Forall_cons_2; [eapply shot_partition; eauto using swaps_refl; lia|].
      apply Forall_app_2; [done|].
      apply Forall_cons_2; [eapply (shot_pivot _ _ _ arr2 low high); eauto; lia|].
      apply Forall_app_2.
      * apply (Forall_shot_weaken low i low high arr arr2); [done|lia|lia|done].
      * apply (Forall_shot_weaken (i + 2) high low high arr arr3); [done|lia|lia|done].
Qed.

Lemma generateSteps_shots input :
  let bars := initialBars input in
  let hi := Z.of_nat (length input) - 1 in
  ∃ new arr c,
    generateSteps input = Ok (initialStep bars :: new ++ [finalStep arr c]) ∧
    qsRun 0 hi bars 0 new arr c ∧
    swaps 0 hi bars arr ∧
    Forall (shot 0 hi bars) new.
Proof.
  intros bars hi.
  destruct (generateSteps_qsRun input) as (new & arr & c & Hrun & Hq).
  destruct (qsRun_shots _ _ _ _ _ _ _ Hq) as (Hsw & _ & Hs).
  by exists new, arr, c.
Qed.

(** ** Indices, tags and narration of a snapshot *)

Lemma shot_indices lo hi arr0 s :
  shot lo hi arr0 s →
  2 ≤ activeLineNumber s ≤ 5 ∧
  lo ≤ pivotIndex s ≤ hi ∧
  Forall (λ k, lo ≤ k < pivotIndex s) (comparing s).
Proof.
  destruct 1; simpl; split_and!; try lia;
    repeat first [apply Forall_nil_2 | apply Forall_cons_2]; lia.
Qed.

(** X1.  In every snapshot of a trace the indices are usable as they
    are: the initial and the terminal snapshot have [pivotIndex = -1] and
    nothing in [comparing]; every other snapshot has a [pivotIndex] that
    is an index of its array, and the indices in [comparing] are indices
    of the array too, all below [pivotIndex]. *)
Theorem snapshot_indices_in_range (input : list number) :
  ∃ t,
    generateSteps input = Ok t ∧
    Forall (λ s,
      ((activeLineNumber s = 1 ∨ activeLineNumber s = 6) ∧
       pivotIndex s = -1 ∧ comparing s = []) ∨
      (2 ≤ activeLineNumber s ≤ 5 ∧
       0 ≤ pivotIndex s < Z.of_nat (length (array s)) ∧
       Forall (λ k, 0 ≤ k < pivotIndex s) (comparing s))) t.
Proof.
  destruct (generateSteps_shots input) as (new & arr & c & -> & _ & _ & Hs).
  eexists. split; [done|].
  apply Forall_cons_2; [left; simpl; auto|].
  apply Forall_app_2; [|apply Forall_singleton; left; simpl; auto].
  eapply Forall_impl; [done|]. intros s Hshot. right.
  destruct (shot_indices _ _ _ _ Hshot) as (? & ? & ?).
  assert (length (array s) = length input) as ->.
  { destruct Hshot as [a ??? Hsw|a ????? Hsw|a ??????? Hsw|a ????? Hsw]; simpl;
      rewrite ?length_imap, (swaps_length _ _ _ _ Hsw); apply length_fmap. }
  split_and!; [lia..|done].
Qed.

Lemma tagPartition_lookup low high arr k b :
  lookupZ (imap (tagPartition low high) arr) k = Some b →
  ∃ b0, lookupZ arr k = Some b0 ∧ value b = value b0 ∧
    state b = (if bool_decide (k = high) then SPivot
               else if (low <=? k) && (k <=? high) then SActive else SDefault).
Proof.
  rewrite lookupZ_imap. destruct (lookupZ arr k) as [b0|] eqn:Hk; [|done].
  apply lookupZ_bounds in Hk as ?. intros [= <-]. exists b0.
  unfold tagPartition. simpl. by rewrite Z2Nat.id by lia.
Qed.

Lemma tagCompare_lookup low high j arr k b :
  lookupZ (imap (tagCompare low high j) arr) k = Some b →
  ∃ b0, lookupZ arr k = Some b0 ∧ value b = value b0 ∧
    state b = (if bool_decide (k = high) then SPivot
               else if bool_decide (k = j) then SComparing
               else if (low <=? k) && (k <=? high) then SActive else SDefault).
Proof.
  rewrite lookupZ_imap. destruct (lookupZ arr k) as [b0|] eqn:Hk; [|done].
  apply lookupZ_bounds in Hk as ?. intros [= <-]. exists b0.
  unfold tagCompare. simpl. by rewrite Z2Nat.id by lia.
Qed.

Lemma shot_tags lo hi arr0 s k b :
  allTagged SDefault arr0 → shot lo hi arr0 s →
  lookupZ (array s) k = Some b →
  (state b = SPivot ↔
     k = pivotIndex s ∧ (activeLineNumber s = 2 ∨ activeLineNumber s = 3)) ∧
  (state b = SComparing ↔ comparing s = [k]) ∧
  state b ≠ SSorted ∧
  (state b = SActive →
     k < pivotIndex s ∧ (activeLineNumber s = 2 ∨ activeLineNumber s = 3)).
Proof.
  intros Hdef Hs Hb.
  destruct Hs as [arr low high bh Hsw|arr low high j bj bh Hsw
                 |arr low high i j bi bj bh Hsw|arr low high i b' count Hsw];
    simpl in *.
  - apply tagPartition_lookup in Hb as (b0 & _ & _ & ->).
    case_bool_decide; [(intuition (first [congruence | lia]))|].
    destruct (Z.leb_spec low k), (Z.leb_spec k high); simpl;
      split_and!; try (intuition (first [congruence | lia])); intros _; split; auto; lia.
  - apply tagCompare_lookup in Hb as (b0 & _ & _ & ->).
    case_bool_decide; [split_and!; try (intuition (first [congruence | lia])); split; [done|]; intros [= ->]; lia|].
    case_bool_decide; [(intuition (first [congruence | lia]))|].
    destruct (Z.leb_spec low k), (Z.leb_spec k high); simpl;
      split_and!; try (intuition (first [congruence | lia])); intros _; split; auto; lia.
  - assert (state b = SDefault) as ->.
    { eapply allTagged_lookupZ; [|done]. by eapply swaps_allTagged. }
    split_and!; try (intuition (first [congruence | lia])).
  - assert (state b = SDefault) as ->.
    { eapply allTagged_lookupZ; [|done]. by eapply swaps_allTagged. }
    split_and!; try (intuition (first [congruence | lia])).
Qed.

(** X2.  The tags of a snapshot can be read off its other fields.  In
    every snapshot of a trace, a cell is tagged ['pivot'] exactly when it
    is the cell [pivotIndex] of a partition-start or comparison snapshot
    (lines 2 and 3); it is tagged ['comparing'] exactly when its index is
    the one element of [comparing]; it is tagged ['sorted'] exactly in
    the terminal snapshot; and an ['active'] cell lies below the pivot
    of a line-2 or line-3 snapshot. *)
Theorem tags_match_metadata (input : list number) :
  ∃ t,
    generateSteps input = Ok t ∧
    Forall (λ s, ∀ k b,
      lookupZ (array s) k = Some b →
      (state b = SPivot ↔
         k = pivotIndex s ∧ (activeLineNumber s = 2 ∨ activeLineNumber s = 3)) ∧
      (state b = SComparing ↔ comparing s = [k]) ∧
      (state b = SSorted ↔ activeLineNumber s = 6) ∧
      (state b = SActive →
         k < pivotIndex s ∧ (activeLineNumber s = 2 ∨ activeLineNumber s = 3))) t.
Proof.
  destruct (generateSteps_shots input) as (new & arr & c & -> & _ & _ & Hs).
  set (bars := initialBars input) in *.
  assert (allTagged SDefault bars) as Hbars by apply initialBars_allTagged.
  eexists. split; [done|].
  apply Forall_cons_2; [|apply Forall_app_2; [|apply Forall_singleton]].
  - intros k b Hb. simpl in *.
    rewrite (allTagged_lookupZ _ _ _ _ Hbars Hb). (intuition (first [congruence | lia])).
  - eapply Forall_impl; [done|]. intros s Hshot k b Hb.
    destruct (shot_tags _ _ _ _ _ _ Hbars Hshot Hb) as (? & ? & ? & ?).
    destruct (shot_indices _ _ _ _ Hshot) as (? & _).
    split_and!; [done|done| |done]. split; [done|lia].
  - intros k b Hb.
    rewrite (allTagged_lookupZ _ _ _ _ (finalStep_allTagged arr c) Hb).
    simpl. (intuition (first [congruence | lia])).
Qed.

(** X3.  The narration of a snapshot names the values that the snapshot
    itself shows.  In a comparison snapshot (line 3) the two values named
    are those of the cell listed in [comparing] and of the cell
    [pivotIndex]; in a swap snapshot (line 4) they are those of the two
    cells listed in [comparing], in that order; in a pivot-placed
    snapshot (line 5) the value and the position named are the value of
    the cell [pivotIndex] and [pivotIndex] itself. *)
Theorem narration_names_cells (input : list number) :
  ∃ t,
    generateSteps input = Ok t ∧
    Forall (λ s,
      (activeLineNumber s = 3 →
       ∃ j bj bp,
         comparing s = [j] ∧
         lookupZ (array s) j = Some bj ∧
         lookupZ (array s) (pivotIndex s) = Some bp ∧
         description s =
           "Comparing " +:+ show_number (value bj) +:+ " with pivot "
             +:+ show_number (value bp)) ∧
      (activeLineNumber s = 4 →
       ∃ i j bi bj,
         comparing s = [i; j] ∧
         lookupZ (array s) i = Some bi ∧
         lookupZ (array s) j = Some bj ∧
         description s =
           "Swapped " +:+ show_number (value bi) +:+ " and "
             +:+ show_number (value bj)) ∧
      (activeLineNumber s = 5 →
       ∃ bp,
         lookupZ (array s) (pivotIndex s) = Some bp ∧
         description s =
           "Placed pivot " +:+ show_number (value bp) +:+ " at position "
             +:+ pretty (pivotIndex s))) t.
Proof.
  destruct (generateSteps_shots input) as (new & arr & c & -> & _ & _ & Hs).
  eexists. split; [done|].
  apply Forall_cons_2; [by simpl|].
  apply Forall_app_2; [|by apply Forall_singleton].
  eapply Forall_impl; [done|]. intros s Hshot.
  destruct Hshot as [a low high bh Hsw|a low high j bj bh Hsw ???? Hj Hh
                    |a low high i j bi bj bh Hsw ????? Hi Hj Hh
                    |a low high i b count Hsw ???? Hb];
    simpl; split_and!; try done; intros _.
  - exists j, (mkBar (value bj) SComparing), (mkBar (value bh) SPivot).
    split_and!; [done| | |done].
    + apply (compareStep_comparing _ low high j (value bj) (value bh) bj Hj). lia.
    + by apply (compareStep_pivot _ low high j (value bj) (value bh) bh).
  - by exists i, j, bi, bj.
  - by exists b.
Qed.

(** ** A placed pivot stays where it is *)

Lemma shot_source lo hi arr0 s :
  shot lo hi arr0 s →
  ∃ arr, swaps lo hi arr0 arr ∧ value <$> array s = value <$> arr.
Proof.
  destruct 1 as [arr|arr|arr|arr]; exists arr; simpl;
    by rewrite ?tagPartition_values, ?tagCompare_values.
Qed.

Lemma lookupZ_values (arr1 arr2 : list ArrayBar) k :
  value <$> arr1 = value <$> arr2 →
  value <$> lookupZ arr1 k = value <$> lookupZ arr2 k.
Proof. intros Hv. by rewrite <-!lookupZ_fmap, Hv. Qed.

(** A snapshot of a call shows the cells outside the range of the call
    as they were when the call began. *)
Lemma shot_frame lo hi arr0 s k :
  shot lo hi arr0 s → k < lo ∨ hi < k →
  value <$> lookupZ (array s) k = value <$> lookupZ arr0 k.
Proof.
  intros (arr & Hsw & Hv)%shot_source Hk.
  rewrite (lookupZ_values _ _ _ Hv). by rewrite (swaps_frame _ _ _ _ _ Hsw).
Qed.

Lemma settled_app l1 l2 :
  settled l1 → settled l2 →
  Forall (λ s, activeLineNumber s = 5 → Forall (agrees s) l2) l1 →
  settled (l1 ++ l2).
Proof.
  induction l1 as [|s l1 IH]; simpl; [done|].
  intros [Hs Hl1] Hl2 [Hs2 Hcross]%Forall_cons. split; [|by apply IH].
  intros H5. apply Forall_app_2; auto.
Qed.

Lemma settled_loop l :
  Forall (λ s, activeLineNumber s = 3 ∨ activeLineNumber s = 4) l → settled l.
Proof.
  induction 1 as [|s l [Hs|Hs] _ IH]; simpl; [done|split; [lia|done]..].
Qed.

Lemma settled_split t pre s post :
  settled t → t = pre ++ s :: post → activeLineNumber s = 5 →
  Forall (agrees s) post.
Proof.
  intros Ht ->. induction pre as [|s' pre IH]; simpl in Ht.
  - intros H5. by apply Ht.
  - apply IH, Ht.
Qed.

(** In the snapshots of a call, each placed pivot is agreed with by all
    that follows, lies in the range of the call, and is still in its
    cell when the call returns. *)
Lemma qsRun_settled low high arr c new arr' c' :
  qsRun low high arr c new arr' c' →
  settled new ∧
  Forall (λ s, activeLineNumber s = 5 →
            low ≤ pivotIndex s ≤ high ∧
            value <$> lookupZ arr' (pivotIndex s)
              = value <$> lookupZ (array s) (pivotIndex s)) new.
Proof.
  induction 1 as [low high arr c ?
                 |low high arr c bh new1 i arr1 bh' bi new3 arr3 c3 new4 arr4 c4
                    Hlt Hbh Hloop Hbh' Hbi Hq3 IH3 Hq4 IH4]; [done|].
  destruct (qsRun_part_facts _ _ _ _ _ _ _ _ _ Hlt Hbh Hloop Hbh' Hbi)
    as (-> & ? & ? & Hsw1 & Hsw2 & Hp & _ & _ & Hlines).
  set (arr2 := swapBars arr1 (i + 1) high bi bh) in *.
  set (sp := pivotStep arr2 i (value bh) (c + 1)).
  destruct (qsRun_shots _ _ _ _ _ _ _ Hq3) as (Hsw3 & _ & Hs3).
  destruct (qsRun_shots _ _ _ _ _ _ _ Hq4) as (Hsw4 & _ & Hs4).
  destruct IH3 as [Hset3 Hfin3]. destruct IH4 as [Hset4 Hfin4].
  assert (∀ k, k < i + 2 → lookupZ arr4 k = lookupZ arr3 k) as Hfr4.
  { intros k Hk. apply (swaps_frame _ _ _ _ _ Hsw4). lia. }
  assert (∀ k, i < k → lookupZ arr3 k = lookupZ arr2 k) as Hfr3.
  { intros k Hk. apply (swaps_frame _ _ _ _ _ Hsw3). lia. }
  assert (Forall (agrees sp) (new3 ++ new4)) as Hsp.
  { apply Forall_app_2.
    - eapply Forall_impl; [exact Hs3|]. intros s' Hs'. unfold agrees. simpl.
      apply (shot_frame _ _ _ _ _ Hs'). lia.
    - eapply Forall_impl; [exact Hs4|]. intros s' Hs'. unfold agrees. simpl.
      rewrite (shot_frame _ _ _ _ _ Hs') by lia. by rewrite Hfr3 by lia. }
  assert (settled (new3 ++ new4)) as Hset34.
  { apply settled_app; [done..|].
    eapply Forall_impl; [exact Hfin3|]. intros s Hs H5.
    destruct (Hs H5) as [? Heq].
    eapply Forall_impl; [exact Hs4|]. intros s' Hs'. unfold agrees.
    rewrite (shot_frame _ _ _ _ _ Hs') by lia. done. }
  split.
  - simpl. split; [done|].
    apply settled_app; [by apply settled_loop|by split|].
    eapply Forall_impl; [exact Hlines|]. intros s [?|?] ?; lia.
  - apply Forall_cons_2; [done|]. apply Forall_app_2.
    { eapply Forall_impl; [exact Hlines|]. intros s [?|?] ?; lia. }
    apply Forall_cons_2; [|apply Forall_app_2].
    + intros _. simpl. split; [lia|]. by rewrite Hfr4, Hfr3 by lia.
    + eapply Forall_impl; [exact Hfin3|]. intros s Hs H5.
      destruct (Hs H5) as [? Heq]. split; [lia|]. by rewrite Hfr4 by lia.
    + eapply Forall_impl; [exact Hfin4|]. intros s Hs H5.
      destruct (Hs H5) as [? Heq]. split; [lia|done].
Qed.

(** X4.  Once a pivot is placed it is never moved again: if [s] is a
    pivot-placed snapshot (line 5) of a trace, every snapshot after [s]
    shows, in the cell [pivotIndex s], the value that [s] shows there,
    the terminal snapshot included. *)
Theorem placed_pivot_stays (input : list number) :
  ∃ t,
    generateSteps input = Ok t ∧
    ∀ pre s post,
      t = pre ++ s :: post → activeLineNumber s = 5 →
      Forall (λ s', value <$> lookupZ (array s') (pivotIndex s)
                      = value <$> lookupZ (array s) (pivotIndex s)) post.
Proof.
  destruct (generateSteps_shots input) as (new & arr & c & -> & Hq & _ & _).
  eexists. split; [done|].
  destruct (qsRun_settled _ _ _ _ _ _ _ Hq) as [Hset Hfin].
  intros pre s post Ht H5. eapply settled_split; [|exact Ht|exact H5].
  simpl. split; [done|].
  apply settled_app; [done|by simpl|].
  eapply Forall_impl; [exact Hfin|]. intros s1 Hs1 H51.
  apply Forall_singleton. unfold agrees. destruct (Hs1 H51) as [_ <-].
  apply lookupZ_values, finalStep_values.
Qed.

(** ** Counting partitions and snapshots *)

Lemma filter_line_loop (n : Z) l :
  n ≠ 3 → n ≠ 4 →
  Forall (λ s, activeLineNumber s = 3 ∨ activeLineNumber s = 4) l →
  filter (λ s, activeLineNumber s = n) l = [].
Proof.
  intros ??. induction 1 as [|s l Hs _ IH]; [done|].
  rewrite filter_cons_False by lia. done.
Qed.

(** The partitions of a call: there is one partition-start snapshot per
    increment of the counter, the pivot-placed snapshots carry the
    consecutive numbers that follow the counter, and a range of [m] cells
    is partitioned at most [m - 1] times. *)
Lemma qsRun_partitions low high arr c new arr' c' :
  qsRun low high arr c new arr' c' →
  partitionInfo <$> filter (λ s, activeLineNumber s = 5) new
    = partitionNote <$> seqZ (c + 1) (c' - c) ∧
  Z.of_nat (length (filter (λ s, activeLineNumber s = 2) new)) = c' - c ∧
  0 ≤ c' - c ≤ Z.max 0 (high - low).
Proof.
  induction 1 as [low high arr c ?
                 |low high arr c bh new1 i arr1 bh' bi new3 arr3 c3 new4 arr4 c4
                    Hlt Hbh Hloop Hbh' Hbi Hq3 IH3 Hq4 IH4].
  { rewrite Z.sub_diag. split_and!; [done|done|lia..]. }
  destruct (qsRun_part_facts _ _ _ _ _ _ _ _ _ Hlt Hbh Hloop Hbh' Hbi)
    as (-> & ? & ? & _ & _ & _ & _ & _ & Hlines).
  destruct IH3 as (H53 & H23 & ?). destruct IH4 as (H54 & H24 & ?).
  split_and!; [| |lia..].
  - rewrite filter_cons_False by (simpl; lia).
    rewrite filter_app, (filter_line_loop 5 new1) by (done || lia).
    rewrite filter_cons_True by done. rewrite filter_app.
    simpl. rewrite fmap_app, H53, H54.
    replace (c4 - c) with (1 + ((c3 - (c + 1)) + (c4 - c3))) by lia.
    rewrite (seqZ_cons (c + 1)) by lia.
    replace (Z.pred (1 + (c3 - (c + 1) + (c4 - c3))))
      with ((c3 - (c + 1)) + (c4 - c3)) by lia.
    rewrite seqZ_app by lia. rewrite fmap_cons, fmap_app.
    replace (Z.succ (c + 1)) with (c + 1 + 1) by lia.
    replace (c + 1 + 1 + (c3 - (c + 1))) with (c3 + 1) by lia. done.
  - rewrite filter_cons_True by done.
    rewrite filter_app, (filter_line_loop 2 new1) by (done || lia).
    rewrite filter_cons_False by (simpl; lia). rewrite filter_app.
    simpl. rewrite length_app. lia.
Qed.

(** X5.  The partitions are counted and numbered in the order in which
    they are made.  The trace of an input of [n] elements has [k]
    partition-start snapshots (line 2) with [k <= n - 1]; its pivot-placed
    snapshots (line 5) carry, in order, the notes ["Partition 1
    complete"] to ["Partition k complete"]; and the terminal snapshot
    reports [k] partitions. *)
Theorem partitions_numbered (input : list number) :
  ∃ t s k,
    generateSteps input = Ok t ∧
    last t = Some s ∧
    Z.of_nat (length (filter (λ s, activeLineNumber s = 2) t)) = k ∧
    0 ≤ k ≤ Z.max 0 (Z.of_nat (length input) - 1) ∧
    partitionInfo <$> filter (λ s, activeLineNumber s = 5) t
      = (λ j, "Partition " +:+ pretty j +:+ " complete") <$> seqZ 1 k ∧
    partitionInfo s = "Quick Sort complete after " +:+ pretty k +:+ " partitions".
Proof.
  destruct (generateSteps_shots input) as (new & arr & c & -> & Hq & _ & _).
  destruct (qsRun_partitions _ _ _ _ _ _ _ Hq) as (H5 & H2 & ?).
  rewrite Z.sub_0_r in *.
  eexists _, (finalStep arr c), c. split_and!; [done| | |lia|lia| |done].
  - by rewrite app_comm_cons, last_snoc.
  - rewrite filter_cons_False by (simpl; lia).
    rewrite filter_app, length_app, (filter_cons_False _ (finalStep arr c))
      by (simpl; lia).
    simpl. lia.
  - rewrite filter_cons_False by (simpl; lia).
    rewrite filter_app, (filter_cons_False _ (finalStep arr c)) by (simpl; lia).
    rewrite filter_nil, app_nil_r. exact H5.
Qed.

(** The number of snapshots of a call on a range of [m] cells. *)
Lemma qsRun_length low high arr c new arr' c' :
  qsRun low high arr c new arr' c' →
  minSteps (high - low + 1) ≤ Z.of_nat (length new) ≤ maxSteps (high - low + 1).
Proof.
  induction 1 as [low high arr c ?
                 |low high arr c bh new1 i arr1 bh' bi new3 arr3 c3 new4 arr4 c4
                    Hlt Hbh Hloop Hbh' Hbi Hq3 IH3 Hq4 IH4].
  { unfold minSteps, maxSteps. destruct (Z.leb_spec (high - low + 1) 1); simpl; lia. }
  destruct (qsRun_part_facts _ _ _ _ _ _ _ _ _ Hlt Hbh Hloop Hbh' Hbi)
    as (-> & ? & ? & _ & _ & _ & Hlen1 & _ & _).
  simpl length. rewrite length_app. simpl length. rewrite length_app.
  revert IH3 IH4. unfold minSteps, maxSteps.
  destruct (Z.leb_spec (high - low + 1) 1); [lia|].
  destruct (Z.leb_spec (i - low + 1) 1), (Z.leb_spec (high - (i + 2) + 1) 1);
    intros; nia.
Qed.

Lemma generateSteps_length input t :
  generateSteps input = Ok t →
  2 + minSteps (Z.of_nat (length input)) ≤ Z.of_nat (length t)
    ≤ 2 + maxSteps (Z.of_nat (length input)).
Proof.
  destruct (generateSteps_shots input) as (new & arr & c & -> & Hq & _ & _).
  intros [= <-]. apply qsRun_length in Hq.
  replace (Z.of_nat (length input) - 1 - 0 + 1) with (Z.of_nat (length input)) in Hq by lia.
  simpl length. rewrite length_app. simpl length. lia.
Qed.

(** X6.  The length of a trace is bounded by the length [n] of the input
    alone: it is 2 when [n <= 1], and lies between [n + 3] and [n * n + n]
    otherwise. *)
Theorem trace_length_bounds (input : list number) :
  ∃ t,
    generateSteps input = Ok t ∧
    2 + minSteps (Z.of_nat (length input)) ≤ Z.of_nat (length t)
      ≤ 2 + maxSteps (Z.of_nat (length input)).
Proof.
  destruct (generateSteps_spec input) as (arr & count & mid & Hrun & _).
  eexists. split; [exact Hrun|]. by apply generateSteps_length.
Qed.

(** ** An input that is in order already *)

(** On a range where every cell is within the pivot and the boundary is
    just behind [j], each turn exchanges a cell with itself. *)
Lemma loopRun_sorted low high pivot j i arr new i' arr' :
  loopRun low high pivot j i arr new i' arr' →
  i = j - 1 → j ≤ high →
  (∀ k b, j ≤ k < high → lookupZ arr k = Some b → js_leb (value b) pivot = true) →
  arr' = arr ∧ i' = high - 1 ∧
  Z.of_nat (length new) = 2 * (high - j) ∧
  Forall (λ s, value <$> array s = value <$> arr) new.
Proof.
  induction 1 as [j i arr ?|j i arr bj bi new i' arr' ? Hj Hle Hi _ IH
                 |j i arr bj new i' arr' ? Hj Hle _ IH]; intros Hij Hjh Hall.
  - split_and!; [done|lia|simpl; lia|done].
  - assert (i + 1 = j) as Heq by lia. rewrite Heq in *.
    assert (bi = bj) as -> by congruence.
    rewrite (swapBars_same _ _ _ Hj) in *.
    destruct IH as (-> & -> & Hlen & Hall'); [lia|lia| |].
    { intros k b ?. apply Hall. lia. }
    split_and!; [done|done|simpl length; lia|].
    repeat apply Forall_cons_2; [apply tagCompare_values|done|done].
  - rewrite (Hall j bj) in Hle; [done|lia|done].
Qed.

Lemma qsRun_sorted low high arr c new arr' c' :
  qsRun low high arr c new arr' c' →
  sortedRange arr low high →
  arr' = arr ∧
  Z.of_nat (length new) = maxSteps (high - low + 1) ∧
  Forall (λ s, value <$> array s = value <$> arr) new.
Proof.
  induction 1 as [low high arr c ?
                 |low high arr c bh new1 i arr1 bh' bi new3 arr3 c3 new4 arr4 c4
                    Hlt Hbh Hloop Hbh' Hbi Hq3 IH3 Hq4 IH4]; intros Hsorted.
  { split_and!; [done| |done]. unfold maxSteps.
    by destruct (Z.leb_spec (high - low + 1) 1); [|lia]. }
  destruct (loopRun_sorted _ _ _ _ _ _ _ _ _ Hloop) as (-> & -> & Hlen1 & Hall1);
    [lia|lia| |].
  { intros k b Hk Hb. apply (Hsorted k high); auto; lia. }
  replace (high - 1 + 1) with high in * by lia.
  assert (bh' = bh) as -> by congruence. assert (bi = bh) as -> by congruence.
  rewrite (swapBars_same _ _ _ Hbh) in *.
  destruct IH3 as (-> & Hlen3 & Hall3).
  { intros k1 k2 b1 b2 ???. apply Hsorted; lia. }
  destruct IH4 as (-> & Hlen4 & Hall4).
  { intros k1 k2 b1 b2 ???. lia. }
  split_and!; [done| |].
  - simpl length. rewrite length_app. simpl length. rewrite length_app.
    revert Hlen3 Hlen4. unfold maxSteps.
    destruct (Z.leb_spec (high - low + 1) 1); [lia|].
    destruct (Z.leb_spec (high - 1 - low + 1) 1),
             (Z.leb_spec (high - (high - 1 + 2) + 1) 1); intros; nia.
  - apply Forall_cons_2; [apply tagPartition_values|].
    apply Forall_app_2; [done|]. apply Forall_cons_2; [done|].
    by apply Forall_app_2.
Qed.

Lemma StronglySorted_lookup_le (zs : list Z) (n1 n2 : nat) z1 z2 :
  StronglySorted Z.le zs → (n1 ≤ n2)%nat →
  zs !! n1 = Some z1 → zs !! n2 = Some z2 → z1 ≤ z2.
Proof.
  intros Hs. revert n1 n2. induction Hs as [|z zs _ IH Hall]; intros n1 n2 Hn; [done|].
  destruct n1 as [|n1], n2 as [|n2]; simpl; try lia.
  - intros [= <-] [= <-]. lia.
  - intros [= <-] Hz2. by eapply (Forall_lookup_1 _ _ _ _ Hall).
  - apply IH. lia.
Qed.

Lemma initialBars_sortedRange (zs : list Z) lo hi :
  StronglySorted Z.le zs → sortedRange (initialBars (Num <$> zs)) lo hi.
Proof.
  intros Hs k1 k2 b1 b2 _ Hk _ [? H1]%lookupZ_Some [? H2]%lookupZ_Some.
  unfold initialBars in *. rewrite <-list_fmap_compose in *.
  apply list_lookup_fmap_Some in H1 as (z1 & -> & H1).
  apply list_lookup_fmap_Some in H2 as (z2 & -> & H2).
  change ((z1 <=? z2) = true). apply Z.leb_le.
  apply (StronglySorted_lookup_le zs (Z.to_nat k1) (Z.to_nat k2)); auto. lia.
Qed.

(** X7.  An input that is in non-decreasing order already is the worst
    case, and nothing moves: every comparison is followed by the exchange
    of a cell with itself, the trace has [n * n + n] snapshots for
    [n >= 2] elements (the upper bound of X6), and every snapshot shows
    the values in the order of the input. *)
Theorem sorted_input_is_worst_case (zs : list Z) :
  StronglySorted Z.le zs →
  ∃ t,
    generateSteps (Num <$> zs) = Ok t ∧
    Z.of_nat (length t) = 2 + maxSteps (Z.of_nat (length zs)) ∧
    Forall (λ s, value <$> array s = Num <$> zs) t.
Proof.
  intros Hs.
  destruct (generateSteps_shots (Num <$> zs)) as (new & arr & c & -> & Hq & _ & _).
  apply qsRun_sorted in Hq as (-> & Hlen & Hall);
    [|by apply initialBars_sortedRange].
  rewrite length_fmap in Hlen.
  replace (Z.of_nat (length zs) - 1 - 0 + 1) with (Z.of_nat (length zs)) in Hlen by lia.
  rewrite initialBars_value in Hall.
  eexists. split_and!; [done| |].
  - simpl length. rewrite length_app. simpl length. lia.
  - apply Forall_cons_2; [apply initialBars_value|].
    apply Forall_app_2; [done|]. apply Forall_singleton.
    rewrite finalStep_values. apply initialBars_value.
Qed.

Lemma sorted_input_is_worst_case_witness :
  ∃ t,
    generateSteps (Num <$> [1; 2; 2; 5]) = Ok t ∧
    Z.of_nat (length t) = 2 + maxSteps (Z.of_nat (length [1; 2; 2; 5])) ∧
    Forall (λ s, value <$> array s = Num <$> [1; 2; 2; 5]) t.
Proof.
  apply (sorted_input_is_worst_case [1; 2; 2; 5]).
  repeat first [apply SSorted_nil | apply SSorted_cons
               | apply Forall_nil_2 | apply Forall_cons_2 | lia].
Defined.

(** ** The terminal snapshot and a reference sort *)

Global Instance js_le_antisymm : AntiSymm (=) js_le.
Proof.
  intros [x|] [y|]; unfold js_le; simpl; try done. intros ??. f_equal. lia.
Qed.

(** X8.  The terminal snapshot holds exactly what a reference sort makes
    of the input: its values are those of [merge_sort] on the input, in
    the same order. *)
Theorem final_snapshot_is_merge_sort (zs : list Z) :
  ∃ t s,
    generateSteps (Num <$> zs) = Ok t ∧
    last t = Some s ∧
    value <$> array s = Num <$> merge_sort Z.le zs.
Proof.
  destruct (generateSteps_spec (Num <$> zs)) as (arr & count & mid & -> & Hr & _ & Hs).
  eexists _, (finalStep arr count). split_and!; [done| |].
  { by rewrite !app_assoc, last_snoc. }
  rewrite finalStep_values. apply (StronglySorted_unique js_le).
  - apply sortedRange_StronglySorted.
    rewrite (reach_length _ _ Hr). unfold initialBars. rewrite length_fmap.
    apply Hs. apply Forall_fmap, Forall_true. intros z. by exists z.
  - eapply StronglySorted_fmap; [|apply (StronglySorted_merge_sort Z.le)].
    intros x y Hxy. by apply Z.leb_le.
  - rewrite (reach_Permutation _ _ Hr), initialBars_value.
    by rewrite merge_sort_Permutation.
Qed.

(** * The claims on the order of the snapshots *)

(** ** One input, one run *)

Lemma loopRun_deterministic low high pivot j i arr new1 i1 arr1 :
  loopRun low high pivot j i arr new1 i1 arr1 →
  ∀ new2 i2 arr2,
    loopRun low high pivot j i arr new2 i2 arr2 →
    new1 = new2 ∧ i1 = i2 ∧ arr1 = arr2.
Proof.
  induction 1 as [j i arr ?|j i arr bj bi new i' arr' ? Hj Hle Hi _ IH
                 |j i arr bj new i' arr' ? Hj Hle _ IH];
    intros new2 i2 arr2 Hrun2; inversion Hrun2; subst; try lia.
  - done.
  - simplify_eq. destruct (IH _ _ _ ltac:(eassumption)) as (-> & -> & ->). done.
  - congruence.
  - congruence.
  - simplify_eq. destruct (IH _ _ _ ltac:(eassumption)) as (-> & -> & ->). done.
Qed.

Lemma qsRun_deterministic low high arr c new1 arr1 c1 :
  qsRun low high arr c new1 arr1 c1 →
  ∀ new2 arr2 c2,
    qsRun low high arr c new2 arr2 c2 →
    new1 = new2 ∧ arr1 = arr2 ∧ c1 = c2.
Proof.
  induction 1 as [low high arr c ?
                 |low high arr c bh new1 i arr1 bh' bi new3 arr3 c3 new4 arr4 c4
                    Hlt Hbh Hloop Hbh' Hbi Hq3 IH3 Hq4 IH4];
    intros new2 arr2 c2 Hrun2; inversion Hrun2; subst; try lia.
  - done.
  - simplify_eq.
    match goal with
    | H : loopRun _ _ _ _ _ _ _ _ _ |- _ =>
        destruct (loopRun_deterministic _ _ _ _ _ _ _ _ _ Hloop _ _ _ H)
          as (-> & -> & ->)
    end.
    simplify_eq.
    match goal with
    | H : qsRun low _ _ _ _ _ _ |- _ => destruct (IH3 _ _ _ H) as (-> & -> & ->)
    end.
    match goal with
    | H : qsRun (_ + 2) _ _ _ _ _ _ |- _ => destruct (IH4 _ _ _ H) as (-> & -> & ->)
    end.
    done.
Qed.

Lemma runsTo_unique input t1 t2 :
  runsTo input t1 → runsTo input t2 → t1 = t2.
Proof.
  intros (new1 & arr1 & c1 & -> & Hq1) (new2 & arr2 & c2 & -> & Hq2).
  by destruct (qsRun_deterministic _ _ _ _ _ _ _ Hq1 _ _ _ Hq2) as (-> & -> & ->).
Qed.

(** ** What follows a comparison *)

Lemma answered_reach arr0 arr1 cmp nxt :
  reach arr0 arr1 → answered arr1 cmp nxt → answered arr0 cmp nxt.
Proof.
  intros Hr [arr low high i j bi bj bh Harr|arr low high j bj bh Harr].
  - intros. apply (answered_swap _ _ _ arr low high i j bi bj bh);
      eauto using reach_trans.
  - intros. apply (answered_keep _ _ _ arr low high j bj bh);
      eauto using reach_trans.
Qed.

Lemma followedBy_reach arr0 arr1 nxt l :
  reach arr0 arr1 → followedBy arr1 nxt l → followedBy arr0 nxt l.
Proof.
  intros Hr. induction l as [|s l IH]; simpl; [done|].
  intros [Hs Hl]. split; [|by apply IH].
  intros H3. eapply answered_reach; [done|]. by apply Hs.
Qed.

Lemma nextOf_app nxt l1 l2 :
  nextOf nxt (l1 ++ l2) = nextOf (nextOf nxt l2) l1.
Proof. by destruct l1. Qed.

Lemma followedBy_app arr0 nxt l1 l2 :
  followedBy arr0 (nextOf nxt l2) l1 → followedBy arr0 nxt l2 →
  followedBy arr0 nxt (l1 ++ l2).
Proof.
  intros H1 H2. induction l1 as [|s l1 IH]; simpl in *; [done|].
  destruct H1 as [Hs H1]. split; [|by apply IH].
  by rewrite nextOf_app.
Qed.

Lemma followedBy_split arr0 nxt t pre s post :
  followedBy arr0 nxt t → t = pre ++ s :: post → activeLineNumber s = 3 →
  answered arr0 s (nextOf nxt post).
Proof.
  intros Ht ->. induction pre as [|s' pre IH]; simpl in Ht.
  - intros H3. by apply Ht.
  - apply IH, Ht.
Qed.

(** The loop begins with a comparison, if it makes any turn. *)
Lemma loopRun_next low high pivot j i arr new i' arr' nxt s :
  loopRun low high pivot j i arr new i' arr' →
  nextOf nxt new = Some s →
  activeLineNumber s = 3 ∨ nxt = Some s.
Proof.
  destruct 1; simpl; [by right|intros [= <-]; by left..].
Qed.

Lemma loopRun_followed low high pivot j i arr new i' arr' bh nxt :
  loopRun low high pivot j i arr new i' arr' →
  low - 1 ≤ i → i < j → j ≤ high →
  lookupZ arr high = Some bh → value bh = pivot →
  (∀ s, nxt = Some s → activeLineNumber s ≠ 4) →
  followedBy arr nxt new.
Proof.
  intros Hrun. revert bh.
  induction Hrun as [j i arr ?|j i arr bj bi new i' arr' ? Hj Hle Hi Hrun IH
                    |j i arr bj new i' arr' ? Hj Hle Hrun IH];
    intros bh Hlow Hij Hjh Hbh <- Hnxt.
  - done.
  - set (arr1 := swapBars arr (i + 1) j bi bj) in *.
    assert (reach arr arr1) as Hr.
    { eapply swaps_reach. apply (swaps_one (i + 1) j); auto; lia. }
    assert (lookupZ arr1 high = Some bh) as Hbh1.
    { unfold arr1. rewrite (swapBars_lookup _ _ _ _ _ _ Hi Hj).
      by rewrite !decide_False by lia. }
    simpl. split_and!.
    + intros _. eapply (answered_swap _ _ _ arr low high (i + 1) j bi bj bh);
        eauto using reach_refl; lia.
    + simpl. lia.
    + eapply followedBy_reach; [done|]. apply (IH bh); auto; lia.
  - simpl. split.
    + intros _. eapply (answered_keep _ _ _ arr low high j bj bh);
        eauto using reach_refl; try lia.
      intros s Hs.
      destruct (loopRun_next _ _ _ _ _ _ _ _ _ _ _ Hrun Hs) as [?|?]; [lia|auto].
    + apply (IH bh); auto; lia.
Qed.

(** In the snapshots of a call every comparison is answered, whatever
    comes after the call. *)
Lemma qsRun_followed low high arr c new arr' c' :
  qsRun low high arr c new arr' c' →
  ∀ nxt, followedBy arr nxt new.
Proof.
  induction 1 as [low high arr c ?
                 |low high arr c bh new1 i arr1 bh' bi new3 arr3 c3 new4 arr4 c4
                    Hlt Hbh Hloop Hbh' Hbi Hq3 IH3 Hq4 IH4]; intros nxt; [done|].
  destruct (qsRun_part_facts _ _ _ _ _ _ _ _ _ Hlt Hbh Hloop Hbh' Hbi)
    as (-> & ? & ? & Hsw1 & Hsw2 & _).
  set (arr2 := swapBars arr1 (i + 1) high bi bh) in *.
  destruct (qsRun_shots _ _ _ _ _ _ _ Hq3) as (Hsw3 & _ & _).
  simpl. split; [simpl; lia|].
  apply followedBy_app.
  - simpl. apply (loopRun_followed _ _ _ _ _ _ _ _ _ bh _ Hloop); auto; try lia.
    intros s [= <-]. simpl. lia.
  - simpl. split; [simpl; lia|].
    apply followedBy_app.
    + eapply followedBy_reach; [by eapply swaps_reach|]. apply IH3.
    + eapply followedBy_reach; [|apply IH4].
      eapply reach_trans; by eapply swaps_reach.
Qed.

Lemma generateSteps_followed input :
  ∃ t,
    generateSteps input = Ok t ∧ runsTo input t ∧
    followedBy (initialBars input) None t.
Proof.
  destruct (generateSteps_qsRun input) as (new & arr & c & Hrun & Hq).
  eexists. split_and!; [exact Hrun|by exists new, arr, c|].
  simpl. split; [simpl; lia|].
  apply followedBy_app; [by apply (qsRun_followed _ _ _ _ _ _ _ Hq)|].
  simpl. split; [simpl; lia|done].
Qed.

(** What [answered] says in terms of the cells of the comparison
    snapshot. *)
Lemma answered_inv arr0 cmp nxt j cj cp :
  answered arr0 cmp nxt →
  comparing cmp = [j] →
  lookupZ (array cmp) j = Some cj →
  lookupZ (array cmp) (pivotIndex cmp) = Some cp →
  ∃ arr low bj bh,
    reach arr0 arr ∧
    cmp = compareStep arr low (pivotIndex cmp) j (value bj) (value bh) ∧
    lookupZ arr j = Some bj ∧ lookupZ arr (pivotIndex cmp) = Some bh ∧
    low ≤ j ∧ j < pivotIndex cmp ∧
    cj = mkBar (value bj) SComparing ∧ cp = mkBar (value bh) SPivot ∧
    ((js_leb (value bj) (value bh) = true ∧
      ∃ i bi,
        lookupZ arr i = Some bi ∧ low ≤ i ∧ i ≤ j ∧
        nxt = Some (swapStep (swapBars arr i j bi bj) (pivotIndex cmp) i j
                      (value bj) (value bi))) ∨
     (js_leb (value bj) (value bh) = false ∧
      ∀ s, nxt = Some s → activeLineNumber s ≠ 4)).
Proof.
  intros Ha Hcmp Hcj Hcp.
  destruct Ha as [arr low high i j' bi bj bh Hr -> Hj Hh Hi ??? Hle Hnxt
                 |arr low high j' bj bh Hr -> Hj Hh ?? Hle Hnxt];
    simpl in Hcmp; injection Hcmp as ->;
    pose proof (compareStep_comparing _ low high j (value bj) (value bh) bj Hj
                  ltac:(lia)) as Hc1;
    pose proof (compareStep_pivot _ low high j (value bj) (value bh) bh Hh) as Hc2;
    simpl in *; exists arr, low, bj, bh;
    (split_and!; [done|done|done|done|lia|lia|congruence|congruence|]).
  - left. split; [done|]. by exists i, bi.
  - by right.
Qed.

(** C3.  One input, one trace, and nothing is drawn.  For every input
    the runs that the code allows (the relation [runsTo], which a random
    draw would make relate one input to several traces) all give the
    same trace, and it is the one [generateSteps] returns.  In that
    trace the snapshot after a comparison is a function of the two
    values compared: it is a swap snapshot exactly when the value of the
    cell compared is [<=] the value of the pivot, so that a value equal
    to the pivot is exchanged every time. *)
Theorem trace_is_unique (input : list number) :
  ∃ t,
    generateSteps input = Ok t ∧
    runsTo input t ∧
    (∀ t', runsTo input t' → t' = t) ∧
    (∀ pre cmp post j cj cp,
       t = pre ++ cmp :: post →
       activeLineNumber cmp = 3 → comparing cmp = [j] →
       lookupZ (array cmp) j = Some cj →
       lookupZ (array cmp) (pivotIndex cmp) = Some cp →
       (js_leb (value cj) (value cp) = true ↔
          ∃ swp post', post = swp :: post' ∧ activeLineNumber swp = 4) ∧
       (isNum (value cj) → value cj = value cp →
          ∃ swp post', post = swp :: post' ∧ activeLineNumber swp = 4)).
Proof.
  destruct (generateSteps_followed input) as (t & Hrun & Hruns & Hf).
  exists t. split_and!; [done|done| |].
  { intros t' Ht'. by apply (runsTo_unique input). }
  intros pre cmp post j cj cp Ht H3 Hcmp Hcj Hcp.
  pose proof (followedBy_split _ _ _ _ _ _ Hf Ht H3) as Ha.
  destruct (answered_inv _ _ _ _ _ _ Ha Hcmp Hcj Hcp)
    as (arr & low & bj & bh & _ & _ & _ & _ & _ & _ & -> & -> & Hcase).
  simpl.
  assert (js_leb (value bj) (value bh) = true ↔
          ∃ swp post', post = swp :: post' ∧ activeLineNumber swp = 4) as Hiff.
  { destruct Hcase as [(Hle & i & bi & _ & _ & _ & Hnxt)|(Hle & Hnxt)].
    - split; [intros _|done].
      destruct post as [|swp post']; simpl in Hnxt; [done|].
      injection Hnxt as ->. by eexists _, _.
    - split; [congruence|]. intros (swp & post' & -> & H4).
      by destruct (Hnxt swp eq_refl). }
  split; [done|].
  intros Hnum Heq. apply Hiff. rewrite <-Heq. by apply js_leb_refl.
Qed.

Lemma trace_is_unique_witness :
  let t := traceOf (generateSteps [Num 5; Num 5; Num 5]) in
  let cj := mkBar (Num 5) SComparing in
  let cp := mkBar (Num 5) SPivot in
  (js_leb (value cj) (value cp) = true ↔
     ∃ swp post', drop 3 t = swp :: post' ∧ activeLineNumber swp = 4) ∧
  (isNum (value cj) → value cj = value cp →
     ∃ swp post', drop 3 t = swp :: post' ∧ activeLineNumber swp = 4).
Proof.
  intros t cj cp.
  destruct (trace_is_unique [Num 5; Num 5; Num 5]) as (t' & Hrun & _ & _ & Hnext).
  assert (t' = t) as -> by (unfold t; by rewrite Hrun).
  apply (Hnext (take 2 t) (stepAt 2 t) (drop 3 t) 0 cj cp); vm_compute; reflexivity.
Defined.

(** C7.  Whenever a comparison finds [arr[j].value <= pivot], the
    snapshot that comes next in the trace is the swap snapshot; it is the
    working array after the exchange of the cells [i] and [j], cell for
    cell and tag for tag: the two elements are at their new places and
    every tag is the ['default'] that the working array stores, with no
    ['pivot'] or ['comparing'] highlight.  The comparison snapshot just
    before it is a map over the same working array, which tags the cell
    [j] ['comparing'] and the cell [pivotIndex] ['pivot'], and so is
    every partition-start snapshot (line 2), which tags the cell
    [pivotIndex] ['pivot']. *)
Theorem swap_snapshot_is_copy (input : list number) :
  ∃ t,
    generateSteps input = Ok t ∧
    (∀ pre cmp post j cj cp,
       t = pre ++ cmp :: post →
       activeLineNumber cmp = 3 → comparing cmp = [j] →
       lookupZ (array cmp) j = Some cj →
       lookupZ (array cmp) (pivotIndex cmp) = Some cp →
       js_leb (value cj) (value cp) = true →
       ∃ arr low i bi bj swp post',
         post = swp :: post' ∧
         activeLineNumber swp = 4 ∧
         reach (initialBars input) arr ∧
         allTagged SDefault arr ∧
         lookupZ arr i = Some bi ∧ lookupZ arr j = Some bj ∧
         array cmp = imap (tagCompare low (pivotIndex cmp) j) arr ∧
         state cj = SComparing ∧ state cp = SPivot ∧
         array swp = swapBars arr i j bi bj ∧
         lookupZ (array swp) i = Some bj ∧
         lookupZ (array swp) j = Some bi ∧
         allTagged SDefault (array swp) ∧
         pivotIndex swp = pivotIndex cmp ∧
         comparing swp = [i; j]) ∧
    Forall (λ s,
      activeLineNumber s = 2 →
      ∃ arr low b,
        reach (initialBars input) arr ∧
        allTagged SDefault arr ∧
        array s = imap (tagPartition low (pivotIndex s)) arr ∧
        lookupZ (array s) (pivotIndex s) = Some b ∧
        state b = SPivot) t.
Proof.
  destruct (generateSteps_followed input) as (t & Hrun & _ & Hf).
  set (bars := initialBars input) in *.
  assert (allTagged SDefault bars) as Hbars by apply initialBars_allTagged.
  exists t. split_and!; [done| |].
  - intros pre cmp post j cj cp Ht H3 Hcmp Hcj Hcp Hle.
    pose proof (followedBy_split _ _ _ _ _ _ Hf Ht H3) as Ha.
    destruct (answered_inv _ _ _ _ _ _ Ha Hcmp Hcj Hcp)
      as (arr & low & bj & bh & Hr & Hc & Hj & Hh & ? & ? & -> & -> & Hcase).
    simpl in Hle.
    destruct Hcase as [(_ & i & bi & Hi & ? & ? & Hnxt)|(Hle' & _)]; [|congruence].
    destruct post as [|swp post']; simpl in Hnxt; [done|]. injection Hnxt as ->.
    assert (allTagged SDefault arr) as Harr by by eapply reach_allTagged.
    exists arr, low, i, bi, bj. eexists _, post'.
    split_and!; try done.
    + by rewrite Hc.
    + simpl. rewrite (swapBars_lookup _ _ _ _ _ _ Hi Hj).
      destruct (decide (i = j)) as [Heq|]; [|by rewrite decide_True].
      rewrite Heq in Hi. congruence.
    + simpl. rewrite (swapBars_lookup _ _ _ _ _ _ Hi Hj). by rewrite decide_True.
    + simpl. eapply reach_allTagged; [|exact Harr].
      eapply swaps_reach. by apply (swaps_one i j).
  - destruct (generateSteps_shots input) as (new & arr & c & Hrun' & _ & _ & Hs).
    rewrite Hrun in Hrun'. injection Hrun' as ->.
    apply Forall_cons_2; [simpl; lia|].
    apply Forall_app_2; [|apply Forall_singleton; simpl; lia].
    eapply Forall_impl; [exact Hs|]. intros s Hshot H2.
    destruct Hshot as [a low high bh Hsw ??? Hbh|a ????? Hsw|a ??????? Hsw|a ????? Hsw];
      simpl in H2; try lia.
    exists a, low, (mkBar (value bh) SPivot). simpl.
    split_and!; try done.
    + by eapply swaps_reach.
    + by eapply swaps_allTagged.
    + by apply partitionStep_pivot.
Qed.

Lemma swap_snapshot_is_copy_witness :
  let input := [Num 3; Num 1; Num 2] in
  let t := traceOf (generateSteps input) in
  let cmp := stepAt 3 t in
  ∃ arr low i bi bj swp post',
    drop 4 t = swp :: post' ∧
    activeLineNumber swp = 4 ∧
    reach (initialBars input) arr ∧
    allTagged SDefault arr ∧
    lookupZ arr i = Some bi ∧ lookupZ arr 1 = Some bj ∧
    array cmp = imap (tagCompare low (pivotIndex cmp) 1) arr ∧
    state (mkBar (Num 1) SComparing) = SComparing ∧
    state (mkBar (Num 2) SPivot) = SPivot ∧
    array swp = swapBars arr i 1 bi bj ∧
    lookupZ (array swp) i = Some bj ∧
    lookupZ (array swp) 1 = Some bi ∧
    allTagged SDefault (array swp) ∧
    pivotIndex swp = pivotIndex cmp ∧
    comparing swp = [i; 1].
Proof.
  intros input t cmp.
  destruct (swap_snapshot_is_copy input) as (t' & Hrun & Hswap & _).
  assert (t' = t) as -> by (unfold t; by rewrite Hrun).
  apply (Hswap (take 3 t) cmp (drop 4 t) 1
           (mkBar (Num 1) SComparing) (mkBar (Num 2) SPivot));
    vm_compute; reflexivity.
Defined.

(** C9.  When the boundary, once incremented, equals [j] (that is, [i + 1
    = j] at the test) and [arr[j].value <= pivot], the loop, from any
    state inside the array, runs to its end, and its trace goes on with
    the comparison snapshot and then a swap snapshot all the same: the
    element was exchanged with itself, so that the snapshot is the array
    as it was, its [comparing] is [[j, j]], and its narration names the
    one value twice; the loop then goes on with the array unchanged. *)
Theorem self_swap_emits_snapshot n low high pivot j i h bj :
  0 ≤ low → low ≤ j → i + 1 = j →
  j + Z.of_nat (S n) = high →
  high < Z.of_nat (length (arrayBars h)) →
  lookupZ (arrayBars h) j = Some bj →
  js_leb (value bj) pivot = true →
  ∃ i' h' h1 rest,
    compareLoop (S n) low high pivot j i h = Ok (i', h') ∧
    let cmp := compareStep (arrayBars h) low high j (value bj) pivot in
    let swp := swapStep (arrayBars h) high j j (value bj) (value bj) in
    steps h' = steps h ++ cmp :: swp :: rest ∧
    activeLineNumber swp = 4 ∧
    array swp = arrayBars h ∧
    comparing swp = [j; j] ∧
    description swp =
      "Swapped " +:+ show_number (value bj) +:+ " and " +:+ show_number (value bj) ∧
    arrayBars h1 = arrayBars h ∧
    steps h1 = steps h ++ [cmp; swp] ∧
    compareLoop n low high pivot (j + 1) j h1 = Ok (i', h').
Proof.
  intros Hlow Hj0 Heq Hn Hhigh Hj Hle.
  destruct (compareLoop_spec (S n) low high pivot j i h)
    as (i' & h' & Hrun & _); [lia..|].
  exists i', h'. rewrite Hrun.
  rewrite compareLoop_S, Hj in Hrun. cbv zeta in Hrun.
  rewrite Hle, Heq, Hj, (swapBars_same _ _ _ Hj) in Hrun.
  apply compareLoop_steps_prefix in Hrun as Hrest. destruct Hrest as [rest Hrest].
  simpl in Hrest.
  eexists (mkHeap _ _ _), rest. split; [done|]. cbv zeta. simpl.
  split_and!; [|done|done|done|done|done| |exact Hrun].
  - by rewrite Hrest, <-!app_assoc.
  - by rewrite <-app_assoc.
Qed.

Lemma self_swap_emits_snapshot_witness :
  let h := mkHeap (initialBars [Num 1; Num 2]) [] 1 in
  let bj := mkBar (Num 1) SDefault in
  ∃ i' h' h1 rest,
    compareLoop 1 0 1 (Num 2) 0 (-1) h = Ok (i', h') ∧
    let cmp := compareStep (arrayBars h) 0 1 0 (value bj) (Num 2) in
    let swp := swapStep (arrayBars h) 1 0 0 (value bj) (value bj) in
    steps h' = steps h ++ cmp :: swp :: rest ∧
    activeLineNumber swp = 4 ∧
    array swp = arrayBars h ∧
    comparing swp = [0; 0] ∧
    description swp =
      "Swapped " +:+ show_number (value bj) +:+ " and " +:+ show_number (value bj) ∧
    arrayBars h1 = arrayBars h ∧
    steps h1 = steps h ++ [cmp; swp] ∧
    compareLoop 0 0 1 (Num 2) (0 + 1) 0 h1 = Ok (i', h').
Proof.
  intros h bj.
  apply (self_swap_emits_snapshot 0 0 1 (Num 2) 0 (-1) h bj);
    first [reflexivity | simpl; lia].
Defined.

(** * Beyond the claims: the component *)

Module Playback.
Import Visualizer.

Ltac unfold_handlers :=
  unfold react, handle, tick, handlePlayPause, handleReset, handleRandomize,
    handleStepForward, handleStepBackward, handleSizeChange, mountEffect,
    loadSteps, playbackEffect, timerFires, timerArmed, lastIndex,
    setSteps, setCurrentStepIndex, setIsPlaying, setShowInfo,
    setAnimationSpeed, setArraySize in *; simpl in *.

Lemma isTrace_first t :
  isTrace t →
  ∃ st, t !! 0%nat = Some st ∧ activeLineNumber st = 1 ∧
        allTagged SDefault (array st) ∧ (2 ≤ length t)%nat.
Proof.
  intros [input Hrun].
  destruct (generateSteps_spec input) as (arr & count & mid & Hrun' & _).
  rewrite Hrun in Hrun'. injection Hrun' as ->.
  eexists. split_and!; [done|done|apply initialBars_allTagged|].
  simpl. rewrite length_app. simpl. lia.
Qed.

(** The playback effect leaves the component playing only with a
    snapshot ahead, and touches nothing but [isPlaying]. *)
Lemma playbackEffect_spec s :
  steps (playbackEffect s) = steps s ∧
  currentStepIndex (playbackEffect s) = currentStepIndex s ∧
  timerArmed (playbackEffect s) = isPlaying (playbackEffect s).
Proof.
  unfold_handlers.
  destruct (isPlaying s) eqn:Hp;
    destruct (Z.ltb_spec (currentStepIndex s) (Z.of_nat (length (steps s)) - 1));
    destruct (Z.leb_spec (Z.of_nat (length (steps s)) - 1) (currentStepIndex s));
    simpl; rewrite ?Hp; split_and!; try done; try lia;
    destruct (Z.ltb_spec (currentStepIndex s) (Z.of_nat (length (steps s)) - 1));
    simpl; try done; lia.
Qed.

(** What every event does to the trace and to the cursor. *)
Lemma handle_spec e s s' :
  handle e s = Ok s' →
  isTrace (steps s) → 0 ≤ currentStepIndex s →
  isTrace (steps s') ∧ 0 ≤ currentStepIndex s' ∧
  (keepsSize e → currentStepIndex s ≤ lastIndex s →
   currentStepIndex s' ≤ lastIndex s').
Proof.
  intros He Ht Hidx.
  destruct (isTrace_first _ Ht) as (st & _ & _ & _ & Hlen).
  destruct e; simpl in He.
  - injection He as <-. unfold_handlers. by split_and!.
  - injection He as <-. unfold_handlers. split_and!; [done|lia|intros; lia].
  - unfold handleRandomize, loadSteps in He.
    destruct (generateSteps newArray) as [t| |] eqn:Hrun; [|done..].
    injection He as <-.
    assert (isTrace t) as Ht' by by exists newArray.
    destruct (isTrace_first _ Ht') as (? & _ & _ & _ & ?).
    unfold_handlers. split_and!; [done|lia|intros; lia].
  - injection He as <-. unfold handleStepForward, lastIndex.
    destruct (Z.ltb_spec (currentStepIndex s) (Z.of_nat (length (steps s)) - 1));
      simpl; split_and!; try done; intros; lia.
  - injection He as <-. unfold handleStepBackward, lastIndex.
    destruct (Z.ltb_spec 0 (currentStepIndex s));
      simpl; split_and!; try done; intros; lia.
  - injection He as <-. unfold_handlers. by split_and!.
  - injection He as <-. unfold_handlers. by split_and!.
  - unfold handleSizeChange, loadSteps in He.
    destruct (generateSteps newArray) as [t| |] eqn:Hrun; [|done..].
    injection He as <-. simpl. split_and!; [by exists newArray|done|done].
  - injection He as <-. unfold timerFires, timerArmed, lastIndex.
    destruct (isPlaying s); simpl; [|by split_and!].
    destruct (Z.ltb_spec (currentStepIndex s) (Z.of_nat (length (steps s)) - 1));
      simpl; split_and!; try done; intros; lia.
Qed.

Lemma react_inv e s s' :
  react e s = Ok s' →
  ∃ s1, handle e s = Ok s1 ∧ s' = playbackEffect s1.
Proof.
  unfold react. destruct (handle e s) as [s1| |]; [|done..].
  intros [= <-]. by exists s1.
Qed.

Lemma mount_spec s :
  mountEffect initial = Ok s →
  isTrace (steps s) ∧ currentStepIndex s = 0.
Proof.
  unfold mountEffect, loadSteps.
  destruct (generateSteps INITIAL_ARRAY) as [t| |] eqn:Hrun; [|done..].
  intros [= <-]. split; [by exists INITIAL_ARRAY|done].
Qed.

Lemma reachable_inv s :
  reachable s →
  isTrace (steps s) ∧ 0 ≤ currentStepIndex s ∧ timerArmed s = isPlaying s.
Proof.
  induction 1 as [s Hm|e s s' _ (Ht & Hidx & _) (s1 & Hh & ->)%react_inv].
  - destruct (mount_spec _ Hm) as [Ht Hidx].
    destruct (playbackEffect_spec s) as (-> & -> & ->). split_and!; [done|lia|done].
  - destruct (handle_spec _ _ _ Hh Ht Hidx) as (? & ? & _).
    destruct (playbackEffect_spec s1) as (-> & -> & ->). done.
Qed.

Lemma reachableSameSize_inv s :
  reachableSameSize s →
  isTrace (steps s) ∧ 0 ≤ currentStepIndex s ≤ lastIndex s.
Proof.
  induction 1 as [s Hm|e s s' _ (Ht & Hidx & Hlast) Hk (s1 & Hh & ->)%react_inv].
  - destruct (mount_spec _ Hm) as [Ht Hidx].
    destruct (isTrace_first _ Ht) as (? & _ & _ & _ & ?).
    unfold lastIndex. destruct (playbackEffect_spec s) as (-> & -> & _).
    split_and!; [done|lia|lia].
  - destruct (handle_spec _ _ _ Hh Ht Hidx) as (? & ? & Hle).
    unfold lastIndex in *. destruct (playbackEffect_spec s1) as (-> & -> & _).
    split_and!; [done|lia|]. by apply Hle.
Qed.

Lemma currentStep_in_range s :
  0 ≤ currentStepIndex s ≤ lastIndex s →
  ∃ st, currentStep s = Some st ∧ steps s !! Z.to_nat (currentStepIndex s) = Some st.
Proof.
  intros Hidx. unfold currentStep, lastIndex in *.
  destruct (lookupZ_is_Some (steps s) (currentStepIndex s)) as [st Hst]; [lia|].
  rewrite Hst. exists st. split; [done|]. by apply lookupZ_Some in Hst as [_ ?].
Qed.

Lemma currentStep_first s st :
  steps s !! 0%nat = Some st →
  currentStepIndex s = 0 ∨ lastIndex s < currentStepIndex s →
  currentStep s = Some st.
Proof.
  intros Hst [Hidx|Hidx]; unfold currentStep, lastIndex in *.
  - by rewrite Hidx, (lookupZ_of_nat _ 0), Hst.
  - destruct (lookupZ (steps s) (currentStepIndex s)) as [st'|] eqn:Hst'; [|done].
    apply lookupZ_bounds in Hst'. lia.
Qed.

(** ** Every render *)


Lemma renderedSameSize_inv s :
  renderedSameSize s →
  s = initial ∨ (isTrace (steps s) ∧ 0 ≤ currentStepIndex s ≤ lastIndex s).
Proof.
  destruct 1 as [|s Hm|e s s' Hs Hk Hh|s Hs].
  - left. reflexivity.
  - right. destruct (mount_spec _ Hm) as [Ht Hidx]. clear Hm.
    destruct (isTrace_first _ Ht) as (? & _ & _ & _ & ?).
    unfold lastIndex. split; [exact Ht|lia].
  - right. apply reachableSameSize_inv in Hs as (Ht & Hidx & Hlast).
    destruct (handle_spec _ _ _ Hh Ht Hidx) as (? & ? & Hle). clear Hh.
    split; [assumption|]. split; [lia|]. apply Hle; [exact Hk|lia].
  - right. apply reachableSameSize_inv in Hs. exact Hs.
Qed.

(** X9.  As long as the array size is not changed, the cursor stays
    inside the trace in every state that is rendered, from the first
    render on and the renders before the playback effect included: the
    state is the first render, where [steps] is still empty and nothing
    is displayed, or [0 <= currentStepIndex <= steps.length - 1] and the
    snapshot on display is [steps[currentStepIndex]]. *)
Theorem cursor_stays_in_range s :
  renderedSameSize s →
  (s = initial ∧ currentStep s = None) ∨
  (0 ≤ currentStepIndex s ≤ lastIndex s ∧
   ∃ st, currentStep s = Some st ∧
         steps s !! Z.to_nat (currentStepIndex s) = Some st).
Proof.
  intros [->|(_ & Hidx)]%renderedSameSize_inv.
  - left. split; reflexivity.
  - right. split; [exact Hidx|]. apply currentStep_in_range, Hidx.
Qed.

Lemma cursor_stays_in_range_witness :
  let s := stateOf (handle Timeout
             (stateOf (react PlayPause (playbackEffect (stateOf (mountEffect initial)))))) in
  (s = initial ∧ currentStep s = None) ∨
  (0 ≤ currentStepIndex s ≤ lastIndex s ∧
   ∃ st, currentStep s = Some st ∧
         steps s !! Z.to_nat (currentStepIndex s) = Some st).
Proof.
  intros s. apply (cursor_stays_in_range s).
  apply (renderedSameSize_event Timeout
           (stateOf (react PlayPause (playbackEffect (stateOf (mountEffect initial))))));
    [|exact I|vm_compute; reflexivity].
  apply (reachableSameSize_react PlayPause
           (playbackEffect (stateOf (mountEffect initial))));
    [apply reachableSameSize_mount|exact I|]; vm_compute; reflexivity.
Defined.




(** X11.  Stepping there and back.  With the cursor inside the trace,
    a step forward followed by a step backward leaves the cursor where
    it was when there was a snapshot ahead, and so does a step backward
    followed by a step forward when there was one behind; either way
    playback is off afterwards.  At the last snapshot a step forward,
    and at the first a step backward, changes nothing at all. *)
Theorem step_there_and_back s :
  0 ≤ currentStepIndex s ≤ lastIndex s →
  (currentStepIndex s < lastIndex s →
   handleStepBackward (handleStepForward s) = setIsPlaying false s) ∧
  (0 < currentStepIndex s →
   handleStepForward (handleStepBackward s) = setIsPlaying false s) ∧
  (currentStepIndex s = lastIndex s → handleStepForward s = s) ∧
  (currentStepIndex s = 0 → handleStepBackward s = s).
Proof.
  intros Hidx. destruct s as [t k p i v n].
  unfold handleStepBackward, handleStepForward, lastIndex, setIsPlaying,
    setCurrentStepIndex in *; simpl in *.
  split_and!; intros Hk.
  - destruct (Z.ltb_spec k (Z.of_nat (length t) - 1)); [|lia]. simpl.
    destruct (Z.ltb_spec 0 (k + 1)); [|lia]. simpl. f_equal. lia.
  - destruct (Z.ltb_spec 0 k); [|lia]. simpl.
    destruct (Z.ltb_spec (k - 1) (Z.of_nat (length t) - 1)); [|lia]. simpl.
    f_equal. lia.
  - by destruct (Z.ltb_spec k (Z.of_nat (length t) - 1)); [lia|].
  - by destruct (Z.ltb_spec 0 k); [lia|].
Qed.

Lemma step_there_and_back_witness :
  let s := mkState (traceOf (generateSteps [Num 2; Num 1])) 2 true false 1000 8 in
  (currentStepIndex s < lastIndex s →
   handleStepBackward (handleStepForward s) = setIsPlaying false s) ∧
  (0 < currentStepIndex s →
   handleStepForward (handleStepBackward s) = setIsPlaying false s) ∧
  (currentStepIndex s = lastIndex s → handleStepForward s = s) ∧
  (currentStepIndex s = 0 → handleStepBackward s = s).
Proof.
  intros s. apply (step_there_and_back s). vm_compute. split; discriminate.
Defined.

(** ** Playback *)

Lemma tick_armed s :
  timerArmed s = true →
  tick s =
    if currentStepIndex s + 1 <? lastIndex s
    then setCurrentStepIndex (currentStepIndex s + 1) s
    else setIsPlaying false (setCurrentStepIndex (currentStepIndex s + 1) s).
Proof.
  intros Harm. unfold tick, timerFires. rewrite Harm.
  unfold timerArmed in Harm. apply andb_true_iff in Harm as [Hp Hlt].
  apply Z.ltb_lt in Hlt.
  unfold playbackEffect, timerArmed, lastIndex, setIsPlaying, setCurrentStepIndex in *.
  simpl. rewrite Hp. simpl.
  destruct (Z.ltb_spec (currentStepIndex s + 1) (Z.of_nat (length (steps s)) - 1));
    [done|].
  by destruct (Z.leb_spec (Z.of_nat (length (steps s)) - 1) (currentStepIndex s + 1));
    [|lia].
Qed.

Lemma iter_tick_armed (m : nat) : ∀ s,
  timerArmed s = true →
  currentStepIndex s + Z.of_nat m < lastIndex s →
  Nat.iter m tick s = setCurrentStepIndex (currentStepIndex s + Z.of_nat m) s.
Proof.
  induction m as [|m IH]; intros s Harm Hm.
  { destruct s. unfold setCurrentStepIndex. simpl. f_equal. lia. }
  simpl Nat.iter. rewrite IH by (done || lia).
  unfold timerArmed in Harm. apply andb_true_iff in Harm as [Hp Hlt].
  rewrite tick_armed.
  - unfold lastIndex, setCurrentStepIndex in *. simpl.
    destruct (Z.ltb_spec (currentStepIndex s + Z.of_nat m + 1)
                (Z.of_nat (length (steps s)) - 1)); [|lia].
    f_equal. lia.
  - unfold timerArmed, lastIndex, setCurrentStepIndex in *. simpl. rewrite Hp. simpl.
    apply Z.ltb_lt. lia.
Qed.

(** X12.  Playback runs to the end of the trace and stops there.  From a
    state where the timer is armed, with [k] snapshots after the cursor,
    each of the first [m < k] periods moves the cursor one snapshot on
    and leaves playback on; after [k] periods the cursor is on the last
    snapshot and playback is off; and from then on the timer does
    nothing. *)
Theorem playback_runs_to_the_end s (m : nat) :
  timerArmed s = true →
  (m < Z.to_nat (lastIndex s - currentStepIndex s))%nat →
  let k := Z.to_nat (lastIndex s - currentStepIndex s) in
  Nat.iter m tick s = setCurrentStepIndex (currentStepIndex s + Z.of_nat m) s ∧
  Nat.iter k tick s = setIsPlaying false (setCurrentStepIndex (lastIndex s) s) ∧
  tick (Nat.iter k tick s) = Nat.iter k tick s.
Proof.
  intros Harm Hm k.
  assert (Nat.iter k tick s = setIsPlaying false (setCurrentStepIndex (lastIndex s) s))
    as Hend.
  { destruct k as [|k'] eqn:Hk; [lia|]. simpl Nat.iter.
    rewrite iter_tick_armed by (done || lia).
    pose proof Harm as Harm'.
    unfold timerArmed in Harm'. apply andb_true_iff in Harm' as [Hp Hlt].
    rewrite tick_armed.
    - unfold lastIndex, setCurrentStepIndex, setIsPlaying in *. simpl.
      destruct (Z.ltb_spec (currentStepIndex s + Z.of_nat k' + 1)
                  (Z.of_nat (length (steps s)) - 1)); [lia|].
      f_equal. lia.
    - unfold timerArmed, lastIndex, setCurrentStepIndex in *. simpl. rewrite Hp. simpl.
      apply Z.ltb_lt. lia. }
  split_and!; [|done|].
  - apply iter_tick_armed; [done|lia].
  - rewrite Hend.
    unfold tick, timerFires, playbackEffect, timerArmed, lastIndex,
      setIsPlaying, setCurrentStepIndex. simpl.
    by destruct (Z.leb_spec (Z.of_nat (length (steps s)) - 1)
                   (Z.of_nat (length (steps s)) - 1)); [|lia].
Qed.

Lemma playback_runs_to_the_end_witness :
  let s := mkState (traceOf (generateSteps [Num 2; Num 1])) 1 true false 1000 8 in
  let k := Z.to_nat (lastIndex s - currentStepIndex s) in
  Nat.iter 2 tick s = setCurrentStepIndex (currentStepIndex s + Z.of_nat 2) s ∧
  Nat.iter k tick s = setIsPlaying false (setCurrentStepIndex (lastIndex s) s) ∧
  tick (Nat.iter k tick s) = Nat.iter k tick s.
Proof.
  intros s. apply (playback_runs_to_the_end s 2); vm_compute; [reflexivity|lia].
Defined.

(** ** New arrays *)

Lemma loadSteps_spec input s :
  ∃ t st,
    generateSteps input = Ok t ∧
    loadSteps input s = Ok (setSteps t s) ∧
    t !! 0%nat = Some st ∧
    activeLineNumber st = 1 ∧
    value <$> array st = input ∧
    allTagged SDefault (array st) ∧
    (2 ≤ length t)%nat.
Proof.
  destruct (generateSteps_spec input) as (arr & count & mid & Hrun & _).
  unfold loadSteps. rewrite Hrun. eexists _, _.
  split_and!; [done|done|done|done|apply initialBars_value|apply initialBars_allTagged|].
  simpl. rewrite length_app. simpl. lia.
Qed.

(** X13.  "New Array" always lands on the new array, unsorted and at
    rest: whatever the state and whatever array is drawn, the component
    ends up paused with the cursor at 0, and the snapshot on display is
    the initial one of the new trace, which shows the drawn values in
    their order, all tagged ['default']; speed, size and the info panel
    are as they were. *)
Theorem new_array_shows_the_array (newArray : list number) s :
  ∃ s' st,
    react (Randomize newArray) s = Ok s' ∧
    generateSteps newArray = Ok (steps s') ∧
    currentStepIndex s' = 0 ∧
    isPlaying s' = false ∧
    currentStep s' = Some st ∧
    activeLineNumber st = 1 ∧
    value <$> array st = newArray ∧
    allTagged SDefault (array st) ∧
    (showInfo s', animationSpeed s', arraySize s')
      = (showInfo s, animationSpeed s, arraySize s).
Proof.
  destruct (loadSteps_spec newArray (setCurrentStepIndex 0 (setIsPlaying false s)))
    as (t & st & Hrun & Hload & Hst & ? & ? & ? & Hlen).
  unfold react, handle, handleRandomize. rewrite Hload.
  eexists _, st. split; [reflexivity|].
  unfold playbackEffect, timerArmed, lastIndex. simpl.
  destruct (Z.leb_spec (Z.of_nat (length t) - 1) 0); [lia|]. simpl.
  split_and!; try done.
  apply currentStep_first; [done|by left].
Qed.

(** X14.  A change of size does not rewind the cursor.  The new trace
    replaces the old one and the cursor keeps its value; when that value
    lies beyond what a trace of the new array can reach ([n * n + n] for
    [n >= 2] elements), the component shows the initial snapshot of the
    new trace, playback is off, and a step forward does nothing. *)
Theorem size_change_keeps_cursor (newSize : Z) (newArray : list number) s :
  2 + maxSteps (Z.of_nat (length newArray)) ≤ currentStepIndex s →
  ∃ s' st,
    react (SizeChange newSize newArray) s = Ok s' ∧
    generateSteps newArray = Ok (steps s') ∧
    arraySize s' = newSize ∧
    currentStepIndex s' = currentStepIndex s ∧
    lastIndex s' < currentStepIndex s' ∧
    isPlaying s' = false ∧
    currentStep s' = Some st ∧
    activeLineNumber st = 1 ∧
    value <$> array st = newArray ∧
    handleStepForward s' = s'.
Proof.
  intros Hidx.
  destruct (loadSteps_spec newArray (setArraySize newSize s))
    as (t & st & Hrun & Hload & Hst & ? & ? & ? & Hlen).
  apply generateSteps_length in Hrun as Hbound.
  unfold react, handle, handleSizeChange. rewrite Hload.
  eexists _, st. split; [reflexivity|].
  assert (timerArmed (setSteps t (setArraySize newSize s)) = false) as Harm.
  { unfold timerArmed, lastIndex. simpl. apply andb_false_iff. right.
    apply Z.ltb_ge. lia. }
  unfold playbackEffect. rewrite Harm. unfold lastIndex. simpl.
  destruct (Z.leb_spec (Z.of_nat (length t) - 1) (currentStepIndex s)); [|lia].
  simpl. split_and!; try done.
  - lia.
  - apply currentStep_first; [done|]. right. unfold lastIndex. simpl. lia.
  - unfold handleStepForward, lastIndex. simpl.
    by destruct (Z.ltb_spec (currentStepIndex s) (Z.of_nat (length t) - 1)); [lia|].
Qed.

Lemma size_change_keeps_cursor_witness :
  let s := mkState (traceOf (generateSteps INITIAL_ARRAY)) 25 true false 1000 8 in
  ∃ s' st,
    react (SizeChange 4 (Num <$> [40; 30; 20; 10])) s = Ok s' ∧
    generateSteps (Num <$> [40; 30; 20; 10]) = Ok (steps s') ∧
    arraySize s' = 4 ∧
    currentStepIndex s' = currentStepIndex s ∧
    lastIndex s' < currentStepIndex s' ∧
    isPlaying s' = false ∧
    currentStep s' = Some st ∧
    activeLineNumber st = 1 ∧
    value <$> array st = Num <$> [40; 30; 20; 10] ∧
    handleStepForward s' = s'.
Proof.
  intros s. apply (size_change_keeps_cursor 4 (Num <$> [40; 30; 20; 10]) s).
  vm_compute. discriminate.
Defined.

(** X15.  "Reset" goes back to the start of the trace at hand: in every
    state the component reaches, it leaves the trace as it is, puts the
    cursor at 0, turns playback off, and the snapshot on display is the
    initial one, with every element tagged ['default']. *)
Theorem reset_shows_initial_snapshot s :
  reachable s →
  ∃ s' st,
    react Reset s = Ok s' ∧
    steps s' = steps s ∧
    currentStepIndex s' = 0 ∧
    isPlaying s' = false ∧
    currentStep s' = Some st ∧
    activeLineNumber st = 1 ∧
    allTagged SDefault (array st).
Proof.
  intros (Ht & _)%reachable_inv.
  destruct (isTrace_first _ Ht) as (st & Hst & ? & ? & Hlen).
  unfold react, handle, handleReset. eexists _, st. split; [reflexivity|].
  unfold playbackEffect, timerArmed, lastIndex. simpl.
  destruct (Z.leb_spec (Z.of_nat (length (steps s)) - 1) 0); [lia|]. simpl.
  split_and!; try done.
  apply currentStep_first; [done|by left].
Qed.

Lemma reset_shows_initial_snapshot_witness :
  let s := stateOf (react StepForward (playbackEffect (stateOf (mountEffect initial)))) in
  ∃ s' st,
    react Reset s = Ok s' ∧
    steps s' = steps s ∧
    currentStepIndex s' = 0 ∧
    isPlaying s' = false ∧
    currentStep s' = Some st ∧
    activeLineNumber st = 1 ∧
    allTagged SDefault (array st).
Proof.
  intros s. apply (reset_shows_initial_snapshot s).
  apply (reachable_react StepForward
           (playbackEffect (stateOf (mountEffect initial))));
    [apply reachable_mount|]; vm_compute; reflexivity.
Defined.

End Playback.
